(** * Position-transform algebra and pending text diffs of slate

    A shallow embedding of

    - [packages/slate/src/interfaces/path.ts]          (module [PathTs]),
    - [unnamed/part_000], a second [Path] implementation (module [Part000]),
    - [unnamed/part_001], the [Point] interface          (module [Point]),
    - [packages/slate-dom/src/utils/diff-text.ts]      (module [DiffText]),

    followed by the properties of these functions. *)

From Stdlib Require Import ZArith List Bool Lia String Ascii.
From stdpp Require Import base tactics option list.
Import ListNotations.

Local Open Scope Z_scope.

(** ** JavaScript values used by the code *)

(** An array element of a [number[]] as the code can see it: an integer
    ([Int]), the not-a-number value ([NaN]), or nothing at all ([Undef]: the
    result of reading past the end, or a hole left by a write past the end).
    Tree indices, offsets and positions are integers that a double holds
    exactly, so they are modelled by [Z]. *)
Inductive jsnum : Type :=
  | Int (z : Z)
  | NaN
  | Undef.

Definition jsnum_eq_dec (a b : jsnum) : {a = b} + {a <> b}.
Proof. decide equality; apply Z.eq_dec. Defined.

#[global] Instance jsnum_eqdec : EqDecision jsnum := jsnum_eq_dec.

(** [a === b] on such values. *)
Definition strict_eq (a b : jsnum) : bool :=
  match a, b with
  | Int x, Int y => x =? y
  | Undef, Undef => true
  | _, _ => false
  end.

(** [a < b]: false as soon as one side is not a number. *)
Definition js_lt (a b : jsnum) : bool :=
  match a, b with
  | Int x, Int y => x <? y
  | _, _ => false
  end.

(** [a <= b]. *)
Definition js_le (a b : jsnum) : bool :=
  match a, b with
  | Int x, Int y => x <=? y
  | _, _ => false
  end.

(** [a >= b]. *)
Definition js_ge (a b : jsnum) : bool :=
  match a, b with
  | Int x, Int y => y <=? x
  | _, _ => false
  end.

(** [a + k] for a number [k]; [undefined + k] and [NaN + k] are [NaN]. *)
Definition js_add (a : jsnum) (k : Z) : jsnum :=
  match a with
  | Int x => Int (x + k)
  | _ => NaN
  end.

(** [a - k]. *)
Definition js_sub (a : jsnum) (k : Z) : jsnum :=
  match a with
  | Int x => Int (x - k)
  | _ => NaN
  end.

(** [export type Path = number[]] *)
Abbreviation Path := (list jsnum).

(** A path whose indices are all integers. *)
Definition ints (p : list Z) : Path := map Int p.

(** [a.length] *)
Definition len {A : Type} (a : list A) : Z := Z.of_nat (length a).

(** [a[i]]: [undefined] outside of the array (and for a negative [i]). *)
Definition js_get (a : Path) (i : Z) : jsnum :=
  if i <? 0 then Undef else nth (Z.to_nat i) a Undef.

(** [a[i] = v]. Inside the array the element is replaced; at or past the end
    the array grows up to index [i], leaving holes in between; a negative [i]
    only adds a property named ["-1"], ... to the array object, which neither
    its length nor its elements show. *)
Definition js_set (a : Path) (i : Z) (v : jsnum) : Path :=
  if i <? 0 then a
  else
    let n := Z.to_nat i in
    if (n <? length a)%nat then <[n := v]> a
    else a ++ replicate (n - length a) Undef ++ [v].

(** [a[i] += k] *)
Definition js_add_at (a : Path) (i : Z) (k : Z) : Path :=
  js_set a i (js_add (js_get a i) k).

(** [a[i] -= k] *)
Definition js_sub_at (a : Path) (i : Z) (k : Z) : Path :=
  js_set a i (js_sub (js_get a i) k).

(** [path.every((n, i) => n === another[i])]; [every] skips the holes of
    [path], and [another[i]] is [undefined] past the end of [another]. *)
Fixpoint every_eq (path another : Path) : bool :=
  match path with
  | [] => true
  | a :: path' =>
      match a with
      | Undef => true
      | _ => strict_eq a (hd Undef another)
      end && every_eq path' (tl another)
  end.

(** [a.slice(0, -1)] *)
Definition slice_init (a : Path) : Path := removelast a.

(** [a.splice(0, n, ...items)] for the array left in [a]: the first [n]
    elements (clamped to the array) are replaced by [items]. *)
Definition splice0 (a : Path) (n : Z) (items : Path) : Path :=
  items ++ drop (Z.to_nat n) a.

(** ** Exceptions *)

Inductive Error : Type :=
  | NextOfRoot          (* Cannot get the next path of a root path *)
  | PreviousOfRoot      (* Cannot get the previous path of a root path *)
  | PreviousOfFirst     (* Cannot get the previous path of a first child path *)
  | NodeNotFound.       (* Node.get: no node at the path *)

(** The outcome of a call that may [throw]. [Timeout] is no outcome of the
    program: it marks a loop of the model that used up its iteration bound. *)
Inductive result (A : Type) : Type :=
  | Ok (a : A)
  | Throw (e : Error)
  | Timeout.

Arguments Ok {A} a.
Arguments Throw {A} e.
Arguments Timeout {A}.

Definition rbind {A B : Type} (r : result A) (k : A -> result B) : result B :=
  match r with
  | Ok a => k a
  | Throw e => Throw e
  | Timeout => Timeout
  end.

Notation "'do' x <- r ; k" := (rbind r (fun x => k))
  (at level 10, x name, r at level 100, k at level 200).

(** The exceptions of [parent] and [relative]; a call that may raise one of
    them returns in the right summand and raises in the left. *)
Inductive UsageError : Type :=
  | ParentOfRoot        (* Cannot get the parent path of the root path *)
  | RelativeNotAbove.   (* Cannot get the relative path ... not above or equal *)

(** ** Array slices *)

(** [a.slice(start, end)] on any array: a negative bound counts from the end,
    both bounds are clamped, and nothing is left when they cross. *)
Definition arr_slice {A : Type} (a : list A) (start stop : Z) : list A :=
  let from := if start <? 0 then Z.max (len a + start) 0 else Z.min start (len a) in
  let to := if stop <? 0 then Z.max (len a + stop) 0 else Z.min stop (len a) in
  take (Z.to_nat (to - from)) (drop (Z.to_nat from) a).

(** [a.slice(start)] *)
Definition arr_slice_from {A : Type} (a : list A) (start : Z) : list A :=
  arr_slice a start (len a).

(** ** Operations *)

(** [TextDirection | null] *)
Inductive Affinity : Type :=
  | forward
  | backward
  | null.

(** The [affinity] option with its default: [{ affinity = 'forward' }]. An
    absent option is [None]. *)
Definition affinity_of (options : option Affinity) : Affinity :=
  match options with
  | None => forward
  | Some a => a
  end.

(** JavaScript strings: sequences of code units. *)
Abbreviation code_unit := N.
Abbreviation jsstring := (list N).

(** The operations that carry a [path]. The first five are the
    [PathTransformingOperation]s. *)
Inductive Operation : Type :=
  | insert_node (path : Path)
  | remove_node (path : Path)
  | merge_node (path : Path) (position : Z)
  | split_node (path : Path) (position : Z)
  | move_node (path : Path) (newPath : Path)
  | insert_text (path : Path) (offset : Z) (text : jsstring)
  | remove_text (path : Path) (offset : Z) (text : jsstring).

Definition op_path (o : Operation) : Path :=
  match o with
  | insert_node p | remove_node p | merge_node p _ | split_node p _
  | move_node p _ | insert_text p _ _ | remove_text p _ _ => p
  end.

Definition is_move_node (o : Operation) : bool :=
  match o with move_node _ _ => true | _ => false end.

(** ** [packages/slate/src/interfaces/path.ts] *)

Module PathTs.

(** [commonDepth]: the loop [while (i < min && path[i] === another[i]) i++]
    walks both arrays from the front. *)
Fixpoint commonDepth (path another : Path) : Z :=
  match path, another with
  | a :: path', b :: another' =>
      if strict_eq a b then 1 + commonDepth path' another' else 0
  | _, _ => 0
  end.

(** [compare]: the [for] loop over the common indices. *)
Fixpoint compare (path another : Path) : Z :=
  match path, another with
  | a :: path', b :: another' =>
      if js_lt a b then -1
      else if js_lt b a then 1
      else compare path' another'
  | _, _ => 0
  end.

(** [isDescendant] *)
Definition isDescendant (path another : Path) : bool :=
  (len another <? len path) && (compare path another =? 0).

(** [equals]. The first disjunct [path === another] compares references;
    two references to one array of integers also pass the second test. *)
Definition equals (path another : Path) : bool :=
  (len path =? len another) && every_eq path another.

(** [next] *)
Definition next (path : Path) : result Path :=
  if len path =? 0 then Throw NextOfRoot
  else
    let last := js_get path (len path - 1) in
    Ok (slice_init path ++ [js_add last 1]).

(** [previous] *)
Definition previous (path : Path) : result Path :=
  if len path =? 0 then Throw PreviousOfRoot
  else
    let last := js_get path (len path - 1) in
    if js_le last (Int 0) then Throw PreviousOfFirst
    else Ok (slice_init path ++ [js_sub last 1]).

(** [transform] *)
Definition transform (path : Path) (operation : Operation)
    (options : option Affinity) : option Path :=
  let op := op_path operation in
  let affinity := affinity_of options in
  if (len path <? len op) &&
     (negb (is_move_node operation) ||
      match operation with
      | move_node _ newPath => len path <? len newPath
      | _ => false
      end)
  then Some path
  else
    let commonDepth := commonDepth path op in
    let opDepth := len op - 1 in
    let opEqOrAbovePath := commonDepth =? len op in
    let opEqualPath := commonDepth =? len path in
    let opEndsBeforePath :=
      (commonDepth =? opDepth) &&
      js_lt (js_get op commonDepth) (js_get path commonDepth) in
    if negb opEqOrAbovePath && negb opEndsBeforePath &&
       negb (is_move_node operation)
    then Some path
    else
      let outPath := path in
      match operation with
      | insert_node _ =>
          if opEqOrAbovePath || opEndsBeforePath
          then Some (js_add_at outPath opDepth 1)
          else Some outPath
      | remove_node _ =>
          if opEqOrAbovePath then None
          else if opEndsBeforePath then Some (js_sub_at outPath opDepth 1)
          else Some outPath
      | merge_node _ position =>
          if opEqualPath || opEndsBeforePath
          then Some (js_sub_at outPath opDepth 1)
          else if opEqOrAbovePath
          then Some (js_add_at (js_sub_at outPath opDepth 1) (len op) position)
          else Some outPath
      | split_node _ position =>
          if opEqualPath then
            match affinity with
            | forward => Some (js_add_at outPath opDepth 1)
            | backward => Some path
            | null => None
            end
          else if opEndsBeforePath
          then Some (js_add_at outPath opDepth 1)
          else if opEqOrAbovePath && js_ge (js_get path commonDepth) (Int position)
          then Some (js_sub_at (js_add_at outPath opDepth 1) (len op) position)
          else Some path
      | move_node _ newOp =>
          if opEqOrAbovePath then
            let commonDepthBetween := PathTs.commonDepth op newOp in
            if commonDepthBetween =? len op then Some path
            else
              let outPath := splice0 outPath (len op) newOp in
              let opEndsBeforeNewOp :=
                (commonDepthBetween =? opDepth) &&
                js_lt (js_get op commonDepthBetween)
                      (js_get newOp commonDepthBetween) in
              if opEndsBeforeNewOp && (len op <? len newOp)
              then Some (js_sub_at outPath opDepth 1)
              else Some outPath
          else
            let newCommonDepth := PathTs.commonDepth path newOp in
            let newOpDepth := len newOp - 1 in
            let newOpEqOrAbovePath := newCommonDepth =? len newOp in
            let newOpEndsBeforePath :=
              (newCommonDepth =? newOpDepth) &&
              js_lt (js_get newOp newCommonDepth)
                    (js_get path newCommonDepth) in
            if opEndsBeforePath then
              if newOpEndsBeforePath && (opDepth =? newOpDepth)
              then Some path
              else if (newOpEqOrAbovePath || newOpEndsBeforePath) &&
                      negb (opDepth =? newOpDepth)
              then Some (js_add_at (js_sub_at outPath opDepth 1) newOpDepth 1)
              else Some (js_sub_at outPath opDepth 1)
            else if newOpEqOrAbovePath || newOpEndsBeforePath
            then Some (js_add_at outPath newOpDepth 1)
            else Some path
      | insert_text _ _ _ | remove_text _ _ _ => Some outPath
      end.

(** The [for] loop of [levels]: [fuel] iterations from [i] on push
    [path.slice(0, i)]. *)
Fixpoint levels_loop (path : Path) (fuel : nat) (i : Z) : list Path :=
  match fuel with
  | O => []
  | S fuel' => arr_slice path 0 i :: levels_loop path fuel' (i + 1)
  end.

(** [levels]; [reverse] is the option of that name ([false] when absent). *)
Definition levels (path : Path) (reverse : bool) : list Path :=
  let list := levels_loop path (S (length path)) 0 in
  if reverse then rev list else list.

(** [ancestors] *)
Definition ancestors (path : Path) (reverse : bool) : list Path :=
  let paths := levels path reverse in
  if reverse then arr_slice_from paths 1 else arr_slice paths 0 (-1).

(** [common]: the loop pushes the indices up to the first that differs. *)
Fixpoint common (path another : Path) : Path :=
  match path, another with
  | av :: path', bv :: another' =>
      if negb (strict_eq av bv) then [] else av :: common path' another'
  | _, _ => []
  end.

(** [endsAfter] *)
Definition endsAfter (path another : Path) : bool :=
  let i := len path - 1 in
  let as_ := arr_slice path 0 i in
  let bs := arr_slice another 0 i in
  let av := js_get path i in
  let bv := js_get another i in
  equals as_ bs && js_lt bv av.

(** [endsAt] *)
Definition endsAt (path another : Path) : bool :=
  let i := len path in
  let as_ := arr_slice path 0 i in
  let bs := arr_slice another 0 i in
  equals as_ bs.

(** [endsBefore] *)
Definition endsBefore (path another : Path) : bool :=
  let i := len path - 1 in
  let as_ := arr_slice path 0 i in
  let bs := arr_slice another 0 i in
  let av := js_get path i in
  let bv := js_get another i in
  equals as_ bs && js_lt av bv.

(** [hasPrevious] *)
Definition hasPrevious (path : Path) : bool :=
  js_lt (Int 0) (js_get path (len path - 1)).

(** [isAfter] *)
Definition isAfter (path another : Path) : bool := compare path another =? 1.

(** [isAncestor] *)
Definition isAncestor (path another : Path) : bool :=
  (len path <? len another) && (compare path another =? 0).

(** [isBefore] *)
Definition isBefore (path another : Path) : bool := compare path another =? -1.

(** [isChild] *)
Definition isChild (path another : Path) : bool :=
  (len path =? len another + 1) && (compare path another =? 0).

(** [isCommon] *)
Definition isCommon (path another : Path) : bool :=
  (len path <=? len another) && (compare path another =? 0).

(** [isParent] *)
Definition isParent (path another : Path) : bool :=
  (len path + 1 =? len another) && (compare path another =? 0).

(** [isSibling] *)
Definition isSibling (path another : Path) : bool :=
  if negb (len path =? len another) then false
  else
    let as_ := arr_slice path 0 (-1) in
    let bs := arr_slice another 0 (-1) in
    let al := js_get path (len path - 1) in
    let bl := js_get another (len another - 1) in
    negb (strict_eq al bl) && equals as_ bs.

(** [parent] *)
Definition parent (path : Path) : UsageError + Path :=
  if len path =? 0 then inl ParentOfRoot
  else inr (arr_slice path 0 (-1)).

(** [relative] *)
Definition relative (path ancestor : Path) : UsageError + Path :=
  if negb (isAncestor ancestor path) && negb (equals path ancestor)
  then inl RelativeNotAbove
  else inr (arr_slice_from path (len ancestor)).

End PathTs.

(** ** [unnamed/part_000]: the second [Path] implementation *)

Module Part000.

(** [commonDepth] *)
Fixpoint commonDepth (path another : Path) : Z :=
  match path, another with
  | a :: path', b :: another' =>
      if strict_eq a b then 1 + commonDepth path' another' else 0
  | _, _ => 0
  end.

(** [compare] *)
Fixpoint compare (path another : Path) : Z :=
  match path, another with
  | a :: path', b :: another' =>
      if js_lt a b then -1
      else if js_lt b a then 1
      else compare path' another'
  | _, _ => 0
  end.

(** [isDescendant] *)
Definition isDescendant (path another : Path) : bool :=
  (len another <? len path) && (compare path another =? 0).

(** [equals] *)
Definition equals (path another : Path) : bool :=
  (len path =? len another) && every_eq path another.

(** [next] *)
Definition next (path : Path) : result Path :=
  if len path =? 0 then Throw NextOfRoot
  else
    let out := path in
    Ok (js_add_at out (len path - 1) 1).

(** [operationCanTransformPath] *)
Definition operationCanTransformPath (operation : Operation) : bool :=
  match operation with
  | insert_node _ | remove_node _ | merge_node _ _ | split_node _ _
  | move_node _ _ => true
  | _ => false
  end.

(** [previous] *)
Definition previous (path : Path) : result Path :=
  if len path =? 0 then Throw PreviousOfRoot
  else
    let last := js_get path (len path - 1) in
    if js_le last (Int 0) then Throw PreviousOfFirst
    else
      let out := path in
      Ok (js_set out (len path - 1) last).

(** [transform]; its [path] argument may be [null]. *)
Definition transform (path : option Path) (operation : Operation)
    (options : option Affinity) : option Path :=
  let op := op_path operation in
  let affinity := affinity_of options in
  match path with
  | None => None
  | Some path =>
    if (len path <? len op) &&
       (negb (is_move_node operation) ||
        match operation with
        | move_node _ newPath => len path <? len newPath
        | _ => false
        end)
    then Some path
    else
      let cd := commonDepth path op in
      let opDepth := len op - 1 in
      let opEqOrAbovePath := cd =? len op in
      let opEqualPath := cd =? len path in
      let opEndsBeforePath :=
        (cd =? opDepth) && js_lt (js_get op cd) (js_get path cd) in
      let outPath := path in
      match operation with
      | insert_node _ =>
          if opEqOrAbovePath || opEndsBeforePath
          then Some (js_add_at outPath opDepth 1)
          else Some outPath
      | remove_node _ =>
          if opEqOrAbovePath then None
          else if opEndsBeforePath then Some (js_sub_at outPath opDepth 1)
          else Some outPath
      | merge_node _ position =>
          if opEqOrAbovePath || opEndsBeforePath
          then Some (js_add_at (js_sub_at outPath opDepth 1) (len op) position)
          else if opEqOrAbovePath
          then Some (js_sub_at outPath opDepth 1)
          else Some path
      | split_node _ position =>
          if opEqualPath then
            match affinity with
            | forward => Some (js_add_at outPath opDepth 1)
            | backward => Some path
            | null => None
            end
          else if opEqOrAbovePath then
            if js_ge (js_get path cd) (Int position)
            then Some (js_sub_at (js_add_at outPath opDepth 1) (len op) position)
            else Some path
          else if opEndsBeforePath
          then Some (js_add_at outPath opDepth 1)
          else Some path
      | move_node _ newOp =>
          if opEqOrAbovePath then
            let cdBetween := commonDepth op newOp in
            if cdBetween =? len newOp then Some path
            else
              let outPath := splice0 outPath cd newOp in
              let opEndsBeforeNewOp :=
                (cdBetween =? opDepth) &&
                js_lt (js_get op cdBetween) (js_get newOp cdBetween) in
              if opEndsBeforeNewOp && (len op <? len newOp)
              then Some (js_sub_at outPath opDepth 1)
              else Some outPath
          else
            let newCd := commonDepth path newOp in
            let newOpDepth := len newOp - 1 in
            let newOpEqOrAbovePath := newCd =? len newOp in
            let newOpEndsBeforePath :=
              (newCd =? newOpDepth) &&
              js_lt (js_get newOp newCd) (js_get path newCd) in
            if newOpEqOrAbovePath || newOpEndsBeforePath then
              if opEndsBeforePath then
                if opDepth =? newOpDepth then Some path
                else Some (js_add_at (js_sub_at outPath opDepth 1) newOpDepth 1)
              else Some (js_add_at outPath newOpDepth 1)
            else if opEndsBeforePath
            then Some (js_sub_at outPath opDepth 1)
            else Some path
      | insert_text _ _ _ | remove_text _ _ _ => Some outPath
      end
  end.

(** [levels] *)
Definition levels (path : Path) (reverse : bool) : list Path :=
  let list := PathTs.levels_loop path (S (length path)) 0 in
  if reverse then rev list else list.

(** [parent] *)
Definition parent (path : Path) : UsageError + Path :=
  if len path =? 0 then inl ParentOfRoot
  else inr (arr_slice path 0 (-1)).

(** [ancestors]; [Path.parent(path)] is called on a path that is not the
    root. *)
Definition ancestors (path : Path) (reverse : bool) : UsageError + list Path :=
  if len path =? 0 then inr []
  else
    match parent path with
    | inl e => inl e
    | inr above => inr (levels above reverse)
    end.

(** [endsAfter] *)
Definition endsAfter (path another : Path) : bool :=
  let i := len path - 1 in
  (commonDepth path another =? i) && js_lt (js_get another i) (js_get path i).

(** [endsAt] *)
Definition endsAt (path another : Path) : bool :=
  commonDepth path another =? len path.

(** [endsBefore] *)
Definition endsBefore (path another : Path) : bool :=
  let i := len path - 1 in
  (commonDepth path another =? i) && js_lt (js_get path i) (js_get another i).

(** [isCommon] *)
Definition isCommon (path another : Path) : bool :=
  (len path <=? len another) && (compare path another =? 0).

(** [isSibling] *)
Definition isSibling (path another : Path) : bool :=
  (len path =? len another) && (commonDepth path another =? len path - 1).

(** [relative] *)
Definition relative (path ancestor : Path) : UsageError + Path :=
  if negb (isCommon ancestor path) then inl RelativeNotAbove
  else inr (arr_slice_from path (len ancestor)).

End Part000.

(** Modelled from the spec: [Operation.transformsPaths], the guard that
    [operationCanTransformPath] of [path.ts] forwards to and that [Point] and
    [diff-text.ts] call, is declared with [Operation], which is not part of
    the sources. It holds exactly of the five structural kinds, as the [switch]
    of [Part000.operationCanTransformPath] spells out. *)
Definition transformsPaths (operation : Operation) : bool :=
  Part000.operationCanTransformPath operation.

(** ** The [PathInterface] as the other modules use it *)

Class PathInterface : Type := {
  Path_equals : Path -> Path -> bool;
  Path_isDescendant : Path -> Path -> bool;
  Path_next : Path -> result Path;
  Path_previous : Path -> result Path;
  Path_transform : Path -> Operation -> option Affinity -> option Path;
}.

(** [path.ts] *)
Definition path_ts : PathInterface := {|
  Path_equals := PathTs.equals;
  Path_isDescendant := PathTs.isDescendant;
  Path_next := PathTs.next;
  Path_previous := PathTs.previous;
  Path_transform := PathTs.transform;
|}.

(** [unnamed/part_000] *)
Definition part_000 : PathInterface := {|
  Path_equals := Part000.equals;
  Path_isDescendant := Part000.isDescendant;
  Path_next := Part000.next;
  Path_previous := Part000.previous;
  Path_transform := fun path => Part000.transform (Some path);
|}.

(** ** [unnamed/part_001]: points *)

(** [BasePoint] *)
Record Point : Type := mkPoint { path : Path; offset : Z }.

Module Point.
Section WithPath.
Context {P : PathInterface}.

(** [equals] *)
Definition equals (point another : Point) : bool :=
  (offset point =? offset another) &&
  Path_equals (path point) (path another).

(** The code after the [switch] of [transform]: the path is rebased and the
    offset kept. When [outPath === path] the point itself is returned, which
    has the same path and offset as the rebuilt one. *)
Definition transform_path (point : Point) (op : Operation)
    (options : option Affinity) : result (option Point) :=
  let outPath :=
    if transformsPaths op
    then Path_transform (path point) op options
    else Some (path point) in
  match outPath with
  | None => Ok None
  | Some outPath => Ok (Some (mkPoint outPath (offset point)))
  end.

(** [transform] *)
Definition transform (point : Point) (op : Operation)
    (options : option Affinity) : result (option Point) :=
  let affinity := affinity_of options in
  let path := path point in
  let offset := offset point in
  if Path_equals (op_path op) path then
    match op with
    | insert_text _ op_offset op_text =>
        if (op_offset <? offset) ||
           ((op_offset =? offset) &&
            match affinity with forward => true | _ => false end)
        then Ok (Some (mkPoint path (offset + len op_text)))
        else Ok (Some point)
    | merge_node _ position =>
        do previous <- Path_previous path;
        Ok (Some (mkPoint previous (offset + position)))
    | remove_text _ op_offset op_text =>
        if op_offset <? offset
        then Ok (Some (mkPoint path (Z.max op_offset (offset - len op_text))))
        else Ok (Some point)
    | split_node _ position =>
        if (position =? offset) &&
           match affinity with null => true | _ => false end
        then Ok None
        else if (position <? offset) ||
                ((position =? offset) &&
                 match affinity with forward => true | _ => false end)
        then
          do next <- Path_next path;
          Ok (Some (mkPoint next (offset - position)))
        else Ok (Some point)
    | _ => transform_path point op options
    end
  else transform_path point op options.

End WithPath.
(** [compare]; [Path.compare] reads the same in both [Path] files. *)
Definition compare (point another : Point) : Z :=
  let result := PathTs.compare (path point) (path another) in
  if result =? 0 then
    if offset point <? offset another then -1
    else if offset another <? offset point then 1
    else 0
  else result.

(** [isAfter] *)
Definition isAfter (point another : Point) : bool := compare point another =? 1.

(** [isBefore] *)
Definition isBefore (point another : Point) : bool := compare point another =? -1.

End Point.

(** [Range]: an anchor and a focus. *)
Record Range : Type := mkRange { anchor : Point; focus : Point }.

Module Range.
Section WithPath.
Context {P : PathInterface}.

(** Modelled from the spec: [Range.isCollapsed] is declared in a file that is
    not part of the sources; a range is collapsed when its anchor equals its
    focus, which for points is [Point.equals]. *)
Definition isCollapsed (range : Range) : bool :=
  Point.equals (anchor range) (focus range).

End WithPath.
End Range.

(** ** [packages/slate-dom/src/utils/diff-text.ts] *)

(** *** Strings *)

(** [s.slice(start, end)]: a negative bound counts from the end of the string,
    both bounds are clamped to the string, and an empty string results when
    they cross. *)
Definition str_slice (s : jsstring) (start stop : Z) : jsstring :=
  let from := if start <? 0 then Z.max (len s + start) 0 else Z.min start (len s) in
  let to := if stop <? 0 then Z.max (len s + stop) 0 else Z.min stop (len s) in
  take (Z.to_nat (to - from)) (drop (Z.to_nat from) s).

(** [s.slice(start)] *)
Definition str_slice_from (s : jsstring) (start : Z) : jsstring :=
  str_slice s start (len s).

(** [s.charAt(i)]: the empty string outside of [s]. *)
Definition charAt (s : jsstring) (i : Z) : jsstring :=
  if (0 <=? i) && (i <? len s) then take 1 (drop (Z.to_nat i) s) else [].

(** [a !== b] on strings *)
Definition str_neq (a b : jsstring) : bool := negb (bool_decide (a = b)).

(** [export type StringDiff] *)
Record StringDiff : Type := mkStringDiff {
  start : Z;
  end_ : Z;
  text : jsstring;
}.

(** [export type TextDiff] *)
Record TextDiff : Type := mkTextDiff {
  td_id : Z;
  td_path : Path;
  td_diff : StringDiff;
}.

(** The string of a literal. *)
Definition js (s : string) : jsstring := map N_of_ascii (list_ascii_of_string s).

(** [s.startsWith(search)] *)
Definition str_startsWith (s search : jsstring) : bool :=
  bool_decide (take (length search) s = search).

(** *** The document, as [diff-text.ts] consults it

    The tree and the queries on it ([Editor], [Node]) and the table of
    pending diffs ([EDITOR_TO_PENDING_DIFFS]) belong to other files; the
    functions below take them as given. *)
Class EditorApi : Type := {
  Editor : Type;
  Node : Type;
  (** [Editor.hasPath(editor, path)] *)
  Editor_hasPath : Editor -> Path -> bool;
  (** [Node.get(editor, path)] *)
  Node_get : Editor -> Path -> result Node;
  (** [Node.isText(node)] *)
  Node_isText : Node -> bool;
  (** [node.text] of a text node *)
  Node_text : Node -> jsstring;
  (** [Editor.above(editor, { match: n => Node.isElement(n) &&
      Editor.isBlock(editor, n), at: path })] *)
  Editor_above_block : Editor -> Path -> result (option (Node * Path));
  (** [Editor.next(editor, { at: path, match: Node.isText })] *)
  Editor_next_text : Editor -> Path -> result (option (Node * Path));
  (** [EDITOR_TO_PENDING_DIFFS.get(editor)] *)
  EDITOR_TO_PENDING_DIFFS_get : Editor -> option (list TextDiff);
}.

Module DiffText.

(** [applyStringDiff(text, ...diffs)] *)
Definition applyStringDiff (text0 : jsstring) (diffs : list StringDiff) : jsstring :=
  fold_left
    (fun text1 diff =>
       str_slice text1 0 (start diff) ++ text diff ++ str_slice_from text1 (end_ diff))
    diffs text0.

(** The [for] loop of [longestCommonPrefixLength], entered at [i] with
    [fuel] iterations left before [i] reaches [length]. *)
Fixpoint longestCommonPrefixLength_loop (str another : jsstring) (length : Z)
    (fuel : nat) (i : Z) : Z :=
  match fuel with
  | O => length
  | S fuel' =>
      if str_neq (charAt str i) (charAt another i) then i
      else longestCommonPrefixLength_loop str another length fuel' (i + 1)
  end.

(** [longestCommonPrefixLength] *)
Definition longestCommonPrefixLength (str another : jsstring) : Z :=
  let length := Z.min (len str) (len another) in
  longestCommonPrefixLength_loop str another length (Z.to_nat length) 0.

(** The [for] loop of [longestCommonSuffixLength]. *)
Fixpoint longestCommonSuffixLength_loop (str another : jsstring) (length : Z)
    (fuel : nat) (i : Z) : Z :=
  match fuel with
  | O => length
  | S fuel' =>
      if str_neq (charAt str (len str - i - 1))
                 (charAt another (len another - i - 1))
      then i
      else longestCommonSuffixLength_loop str another length fuel' (i + 1)
  end.

(** [longestCommonSuffixLength] *)
Definition longestCommonSuffixLength (str another : jsstring) (max : Z) : Z :=
  let length := Z.min (Z.min (len str) (len another)) max in
  longestCommonSuffixLength_loop str another length (Z.to_nat length) 0.

(** [normalizeStringDiff] *)
Definition normalizeStringDiff (targetText : jsstring) (diff : StringDiff)
    : option StringDiff :=
  let removedText := str_slice targetText (start diff) (end_ diff) in
  let prefixLength := longestCommonPrefixLength removedText (text diff) in
  let max :=
    Z.min (len removedText - prefixLength) (len (text diff) - prefixLength) in
  let suffixLength := longestCommonSuffixLength removedText (text diff) max in
  let normalized := {|
    start := start diff + prefixLength;
    end_ := end_ diff - suffixLength;
    text := str_slice (text diff) prefixLength (len (text diff) - suffixLength);
  |} in
  if (start normalized =? end_ normalized) && (len (text normalized) =? 0)
  then None
  else Some normalized.

(** [mergeStringDiffs] *)
Definition mergeStringDiffs (targetText : jsstring) (a b : StringDiff)
    : option StringDiff :=
  let start0 := Z.min (start a) (start b) in
  let overlap :=
    Z.max 0 (Z.min (start a + len (text a)) (end_ b) - start b) in
  let applied := applyStringDiff targetText [a; b] in
  let sliceEnd :=
    Z.max
      (start b + len (text b))
      (start a + len (text a) +
       (if start b <? start a + len (text a) then len (text b) else 0) -
       overlap) in
  let text0 := str_slice applied start0 sliceEnd in
  let end0 := Z.max (end_ a) (end_ b - len (text a) + (end_ a - start a)) in
  normalizeStringDiff targetText {| start := start0; end_ := end0; text := text0 |}.

Section WithEditor.
Context {P : PathInterface} {E : EditorApi}.

(** The [while] loop of [normalizePoint]; [fuel] bounds its iterations. *)
Fixpoint normalizePoint_loop (fuel : nat) (editor : Editor)
    (parentBlock : Node * Path) (path : Path) (leaf : Node) (offset : Z)
    : result (option Point) :=
  if len (Node_text leaf) <? offset then
    match fuel with
    | O => Timeout
    | S fuel' =>
        do entry <- Editor_next_text editor path;
        match entry with
        | None => Ok None
        | Some entry =>
            if negb (Path_isDescendant (snd entry) (snd parentBlock))
            then Ok None
            else
              normalizePoint_loop fuel' editor parentBlock (snd entry)
                (fst entry) (offset - len (Node_text leaf))
        end
    end
  else Ok (Some (mkPoint path offset)).

(** [normalizePoint] *)
Definition normalizePoint (fuel : nat) (editor : Editor) (point : Point)
    : result (option Point) :=
  let path := path point in
  let offset := offset point in
  if negb (Editor_hasPath editor path) then Ok None
  else
    do leaf <- Node_get editor path;
    if negb (Node_isText leaf) then Ok None
    else
      do parentBlock <- Editor_above_block editor path;
      match parentBlock with
      | None => Ok None
      | Some parentBlock =>
          normalizePoint_loop fuel editor parentBlock path leaf offset
      end.

(** [normalizeRange] *)
Definition normalizeRange (fuel : nat) (editor : Editor) (range : Range)
    : result (option Range) :=
  do anchor <- normalizePoint fuel editor (anchor range);
  match anchor with
  | None => Ok None
  | Some anchor =>
      if Range.isCollapsed range
      then Ok (Some {| anchor := anchor; focus := anchor |})
      else
        do focus <- normalizePoint fuel editor (focus range);
        match focus with
        | None => Ok None
        | Some focus => Ok (Some {| anchor := anchor; focus := focus |})
        end
  end.

(** [transformPendingPoint] *)
Definition transformPendingPoint (editor : Editor) (point : Point)
    (op : Operation) : result (option Point) :=
  let pendingDiffs := EDITOR_TO_PENDING_DIFFS_get editor in
  let textDiff :=
    match pendingDiffs with
    | None => None
    | Some pendingDiffs =>
        List.find (fun d => Path_equals (td_path d) (path point)) pendingDiffs
    end in
  match textDiff with
  | None => Point.transform point op (Some backward)
  | Some textDiff =>
      if offset point <=? start (td_diff textDiff)
      then Point.transform point op (Some backward)
      else
        let diff := td_diff textDiff in
        if offset point <=? start diff + len (text diff) then
          let anchor := mkPoint (path point) (start diff) in
          do transformed <- Point.transform anchor op (Some backward);
          match transformed with
          | None => Ok None
          | Some transformed =>
              Ok (Some (mkPoint (path transformed)
                          (offset transformed + offset point - start diff)))
          end
        else
          let anchor :=
            mkPoint (path point)
              (offset point - len (text diff) + end_ diff - start diff) in
          do transformed <- Point.transform anchor op (Some backward);
          match transformed with
          | None => Ok None
          | Some transformed =>
              if match op with
                 | split_node op_path position =>
                     Path_equals op_path (path point) &&
                     (offset anchor <? position) &&
                     (start diff <? position)
                 | _ => false
                 end
              then Ok (Some transformed)
              else
                Ok (Some (mkPoint (path transformed)
                            (offset transformed + len (text diff)
                             - end_ diff + start diff)))
          end
  end.

(** [transformPendingRange] *)
Definition transformPendingRange (editor : Editor) (range : Range)
    (op : Operation) : result (option Range) :=
  do anchor <- transformPendingPoint editor (anchor range) op;
  match anchor with
  | None => Ok None
  | Some anchor =>
      if Range.isCollapsed range
      then Ok (Some {| anchor := anchor; focus := anchor |})
      else
        do focus <- transformPendingPoint editor (focus range) op;
        match focus with
        | None => Ok None
        | Some focus => Ok (Some {| anchor := anchor; focus := focus |})
        end
  end.

(** [verifyDiffState] *)
Definition verifyDiffState (editor : Editor) (textDiff : TextDiff) : result bool :=
  let path := td_path textDiff in
  let diff := td_diff textDiff in
  if negb (Editor_hasPath editor path) then Ok false
  else
    do node <- Node_get editor path;
    if negb (Node_isText node) then Ok false
    else if negb (start diff =? len (Node_text node)) || (len (text diff) =? 0)
    then
      Ok (bool_decide
            (str_slice (Node_text node) (start diff)
               (start diff + len (text diff)) = text diff))
    else
      do nextPath <- Path_next path;
      if negb (Editor_hasPath editor nextPath) then Ok false
      else
        do nextNode <- Node_get editor nextPath;
        Ok (Node_isText nextNode && str_startsWith (Node_text nextNode) (text diff)).

End WithEditor.

Section WithPath.
Context {P : PathInterface}.

(** The code after the [switch] of [transformTextDiff]. *)
Definition transformTextDiff_path (textDiff : TextDiff) (op : Operation)
    : result (option TextDiff) :=
  if negb (transformsPaths op) then Ok (Some textDiff)
  else
    match Path_transform (td_path textDiff) op None with
    | None => Ok None
    | Some newPath =>
        Ok (Some {| td_diff := td_diff textDiff; td_path := newPath;
                    td_id := td_id textDiff |})
    end.

(** [transformTextDiff] *)
Definition transformTextDiff (textDiff : TextDiff) (op : Operation)
    : result (option TextDiff) :=
  let path := td_path textDiff in
  let diff := td_diff textDiff in
  let id := td_id textDiff in
  let start := start diff in
  let end0 := end_ diff in
  let text := text diff in
  if Path_equals (op_path op) path then
    match op with
    | insert_text _ op_offset op_text =>
        let length := len op_text in
        if op_offset <=? start then
          Ok (Some {| td_diff := mkStringDiff (start + length) (end0 + length) text;
                      td_id := id; td_path := path |})
        else if op_offset <? end0 then
          Ok (Some {| td_diff := mkStringDiff start (end0 + length) text;
                      td_id := id; td_path := path |})
        else Ok (Some textDiff)
    | remove_text _ op_offset op_text =>
        let length := len op_text in
        if op_offset + length <=? start then
          Ok (Some {| td_diff := mkStringDiff (start - length) (end0 - length) text;
                      td_id := id; td_path := path |})
        else if op_offset <? end0 then
          Ok (Some {| td_diff := mkStringDiff start (end0 - length) text;
                      td_id := id; td_path := path |})
        else Ok (Some textDiff)
    | split_node _ position =>
        if position <=? start then
          do next <- Path_next path;
          Ok (Some {| td_diff := mkStringDiff (start - position) (end0 - position) text;
                      td_id := id; td_path := next |})
        else if position <? end0 then
          Ok (Some {| td_diff := mkStringDiff start (Z.min position end0) text;
                      td_id := id; td_path := path |})
        else
          Ok (Some {| td_diff := diff; td_id := id; td_path := path |})
    | merge_node _ position =>
        (* [Path.transform(path, op)!]: neither implementation of
           [transform] answers [null] to a [merge_node], so the branch for
           [null] is never taken *)
        let newPath :=
          match Path_transform path op None with
          | Some newPath => newPath
          | None => path
          end in
        Ok (Some {| td_diff := mkStringDiff (start + position) (end0 + position) text;
                    td_id := id; td_path := newPath |})
    | _ => transformTextDiff_path textDiff op
    end
  else transformTextDiff_path textDiff op.

End WithPath.
(** [targetRange] *)
Definition targetRange (textDiff : TextDiff) : Range :=
  let path := td_path textDiff in
  let diff := td_diff textDiff in
  {| anchor := mkPoint path (start diff); focus := mkPoint path (end_ diff) |}.

End DiffText.

(** ** [packages/slate/src/utils/modify.ts]: the children arrays *)

Module Modify.

(** [replaceChildren]: a copy of [children] in which [splice] has replaced
    [removeCount] elements from [index] on by [newValues]. [splice] counts a
    negative [index] from the end and clamps both numbers to the array. *)
Definition replaceChildren {T : Type} (children : list T) (index removeCount : Z)
    (newValues : list T) : list T :=
  let out := children in
  let from :=
    if index <? 0 then Z.max (len out + index) 0 else Z.min index (len out) in
  let deleteCount := Z.min (Z.max removeCount 0) (len out - from) in
  take (Z.to_nat from) out ++ newValues ++ drop (Z.to_nat (from + deleteCount)) out.

(** [insertChildren] *)
Definition insertChildren {T : Type} (children : list T) (index : Z)
    (newValues : list T) : list T :=
  replaceChildren children index 0 newValues.

(** [removeChildren = replaceChildren] *)
Definition removeChildren {T : Type} (children : list T) (index removeCount : Z)
    (newValues : list T) : list T :=
  replaceChildren children index removeCount newValues.

(** [replaceChild]: a copy of [children] with [out[index] = newValue]. The
    copy may have holes, when [index] is past the end; they are [None]. A
    negative [index] only adds a property to the copy. *)
Definition replaceChild {T : Type} (children : list T) (index : Z) (newValue : T)
    : list (option T) :=
  let out := map Some children in
  if index <? 0 then out
  else
    let n := Z.to_nat index in
    if (n <? length out)%nat then <[n := Some newValue]> out
    else out ++ replicate (n - length out) None ++ [Some newValue].

End Modify.

(** ** A one-leaf document

    The smallest document the functions of [diff-text.ts] can be run on: a
    single text leaf at [[0]] that reads ["hello"], below the root block, and
    no pending diff. *)
Definition one_leaf : EditorApi := {|
  Editor := unit;
  Node := jsstring;
  Editor_hasPath := fun _ p => PathTs.equals p [Int 0];
  Node_get := fun _ p =>
    if PathTs.equals p [Int 0] then Ok (js "hello") else Throw NodeNotFound;
  Node_isText := fun _ => true;
  Node_text := fun n => n;
  Editor_above_block := fun _ _ => Ok (Some ([], []));
  Editor_next_text := fun _ _ => Ok None;
  EDITOR_TO_PENDING_DIFFS_get := fun _ => None;
|}.

(** ** Relations between paths, in the words of the specification *)

(** [op] is an earlier sibling of [p] or of one of the ancestors of [p]. *)
Definition EndsBefore (op p : list Z) : Prop :=
  exists pre i j rest, op = pre ++ [i] /\ p = pre ++ j :: rest /\ i < j.

(** [p] lies strictly inside the subtree rooted at [op]. *)
Definition StrictlyInside (p op : list Z) : Prop :=
  exists c rest, p = op ++ c :: rest.

(** The test [opEndsBeforePath] of [transform], on its own: [op] is an
    earlier sibling of [path] or of one of its ancestors. *)
Definition opEndsBeforePath (path op : Path) : bool :=
  let commonDepth := PathTs.commonDepth path op in
  (commonDepth =? len op - 1) &&
  js_lt (js_get op commonDepth) (js_get path commonDepth).

(** [p] with the index at depth [d] increased by [k]. A path that has no index
    at depth [d] is left as it is. *)
Definition adjust (d k : Z) (p : list Z) : list Z :=
  if d <? 0 then p else alter (fun x => x + k) (Z.to_nat d) p.

(** A diff that fits its text: [0 <= start <= end <= text.length]. *)
Definition fits (t : jsstring) (d : StringDiff) : Prop :=
  0 <= start d /\ start d <= end_ d /\ end_ d <= len t.

(** * Properties *)

(** ** Booleans of the code as propositions *)

Ltac bool_hyps :=
  repeat match goal with
  | H : (_ && _) = true |- _ => apply andb_true_iff in H; destruct H
  | H : (_ || _) = false |- _ => apply orb_false_iff in H; destruct H
  | H : negb _ = true |- _ => apply negb_true_iff in H
  | H : negb _ = false |- _ => apply negb_false_iff in H
  | H : (_ =? _) = true |- _ => apply Z.eqb_eq in H
  | H : (_ =? _) = false |- _ => apply Z.eqb_neq in H
  | H : (_ <? _) = true |- _ => apply Z.ltb_lt in H
  | H : (_ <? _) = false |- _ => apply Z.ltb_ge in H
  | H : (_ <=? _) = true |- _ => apply Z.leb_le in H
  | H : (_ <=? _) = false |- _ => apply Z.leb_gt in H
  end.

Ltac bool_split :=
  repeat match goal with
  | H : (_ && _) = false |- _ => apply andb_false_iff in H; destruct H
  | H : (_ || _) = true |- _ => apply orb_true_iff in H; destruct H
  | _ => progress bool_hyps
  end.

(** ** Arrays *)

Lemma len_nonneg {A : Type} (a : list A) : 0 <= len a.
Proof. unfold len. lia. Qed.

Lemma len_app {A : Type} (a b : list A) : len (a ++ b) = len a + len b.
Proof. unfold len. rewrite length_app. lia. Qed.

Lemma len_cons {A : Type} (x : A) (a : list A) : len (x :: a) = 1 + len a.
Proof. unfold len. simpl. lia. Qed.

Lemma len_ints (p : list Z) : len (ints p) = len p.
Proof. unfold len, ints. now rewrite length_map. Qed.

Lemma len_zero_nil {A : Type} (a : list A) : len a = 0 -> a = [].
Proof.
  destruct a as [| x a']; [reflexivity |].
  rewrite len_cons. pose proof (len_nonneg a'). lia.
Qed.

(** A write below the end of an array keeps its length. *)
Lemma js_set_length (a : Path) (i : Z) (v : jsnum) :
  i < len a -> length (js_set a i v) = length a.
Proof.
  intros Hi. unfold js_set.
  destruct (i <? 0) eqn:Hneg; [reflexivity |].
  bool_hyps.
  destruct (Z.to_nat i <? length a)%nat eqn:Hin.
  - apply length_insert.
  - apply Nat.ltb_ge in Hin. unfold len in Hi. lia.
Qed.

Lemma js_add_at_length (a : Path) (i k : Z) :
  i < len a -> length (js_add_at a i k) = length a.
Proof. apply js_set_length. Qed.

Lemma js_sub_at_length (a : Path) (i k : Z) :
  i < len a -> length (js_sub_at a i k) = length a.
Proof. apply js_set_length. Qed.

Lemma js_get_app_r (pre : Path) (x : jsnum) (rest : Path) :
  js_get (pre ++ x :: rest) (len pre) = x.
Proof.
  unfold js_get, len.
  destruct (Z.of_nat (length pre) <? 0) eqn:H; bool_hyps; [lia |].
  rewrite Nat2Z.id, app_nth2 by lia. now rewrite Nat.sub_diag.
Qed.

Lemma js_set_app_r (pre : Path) (x v : jsnum) (rest : Path) :
  js_set (pre ++ x :: rest) (len pre) v = pre ++ v :: rest.
Proof.
  unfold js_set, len.
  destruct (Z.of_nat (length pre) <? 0) eqn:H; bool_hyps; [lia |].
  rewrite Nat2Z.id.
  destruct (length pre <? length (pre ++ x :: rest))%nat eqn:Hin.
  - rewrite insert_app_r_alt by lia. now rewrite Nat.sub_diag.
  - apply Nat.ltb_ge in Hin. rewrite length_app in Hin. simpl in Hin. lia.
Qed.

Lemma js_set_negative (a : Path) (i : Z) (v : jsnum) : i < 0 -> js_set a i v = a.
Proof. intros H. unfold js_set. now apply Z.ltb_lt in H as ->. Qed.

Lemma ints_app (p q : list Z) : ints (p ++ q) = ints p ++ ints q.
Proof. apply map_app. Qed.

(** [a[i] += k] on the index that follows the prefix [pre]. *)
Lemma js_add_at_ints (pre : list Z) (x : Z) (rest : list Z) (k : Z) :
  js_add_at (ints (pre ++ x :: rest)) (len pre) k = ints (pre ++ (x + k) :: rest).
Proof.
  unfold js_add_at. rewrite !ints_app. simpl. rewrite <- (len_ints pre).
  now rewrite js_get_app_r, js_set_app_r.
Qed.

Lemma js_sub_at_ints (pre : list Z) (x : Z) (rest : list Z) (k : Z) :
  js_sub_at (ints (pre ++ x :: rest)) (len pre) k = ints (pre ++ (x - k) :: rest).
Proof.
  unfold js_sub_at. rewrite !ints_app. simpl. rewrite <- (len_ints pre).
  now rewrite js_get_app_r, js_set_app_r.
Qed.

(** Rewrites the length of an array after writes below its end. *)
Ltac length_of_writes :=
  repeat match goal with
  | |- context [length (js_sub_at ?a ?i ?k)] =>
      rewrite (js_sub_at_length a i k)
        by (unfold len in *; length_of_writes; lia)
  | |- context [length (js_add_at ?a ?i ?k)] =>
      rewrite (js_add_at_length a i k)
        by (unfold len in *; length_of_writes; lia)
  end.

(** ** [commonDepth] *)

Lemma commonDepth_bounds (p q : Path) :
  0 <= PathTs.commonDepth p q /\
  PathTs.commonDepth p q <= len p /\ PathTs.commonDepth p q <= len q.
Proof.
  revert q. induction p as [| a p IH]; intros q; destruct q as [| b q];
    cbn [PathTs.commonDepth]; unfold len in *; cbn [length]; try lia.
  destruct (strict_eq a b); [specialize (IH q) |]; lia.
Qed.

Lemma commonDepth_part000 (p q : Path) :
  Part000.commonDepth p q = PathTs.commonDepth p q.
Proof. reflexivity. Qed.

(** On integer paths the common depth skips a shared prefix. *)
Lemma commonDepth_ints_app (pre p q : list Z) :
  PathTs.commonDepth (ints (pre ++ p)) (ints (pre ++ q)) =
  len pre + PathTs.commonDepth (ints p) (ints q).
Proof.
  induction pre as [| x pre IH]; [reflexivity |].
  cbn [app ints map PathTs.commonDepth strict_eq]. rewrite Z.eqb_refl.
  fold (ints (pre ++ p)) (ints (pre ++ q)). rewrite IH, len_cons. lia.
Qed.

(** Two integer paths split into their common prefix and two rests that
    start differently (or one of which is empty). *)
Lemma commonDepth_ints_split (p q : list Z) :
  exists pre p' q',
    p = pre ++ p' /\ q = pre ++ q' /\
    PathTs.commonDepth (ints p) (ints q) = len pre /\
    match p', q' with
    | x :: _, y :: _ => x <> y
    | _, _ => True
    end.
Proof.
  revert q. induction p as [| x p IH]; intros q.
  - exists [], [], q. now repeat split.
  - destruct q as [| y q].
    + exists [], (x :: p), []. now repeat split.
    + cbn [ints map PathTs.commonDepth strict_eq].
      destruct (Z.eqb_spec x y) as [-> | Hne].
      * destruct (IH q) as (pre & p' & q' & -> & -> & Hcd & Hd).
        exists (y :: pre), p', q'. fold (ints (pre ++ p')) (ints (pre ++ q')).
        rewrite Hcd, len_cons. now repeat split.
      * exists [], (x :: p), (y :: q). now repeat split.
Qed.

(** [op] is [path] or above it: [commonDepth === op.length]. *)
Lemma commonDepth_eq_len_r (p op : list Z) :
  PathTs.commonDepth (ints p) (ints op) = len op <-> exists rest, p = op ++ rest.
Proof.
  split.
  - intros H. destruct (commonDepth_ints_split p op) as (pre & p' & q' & -> & -> & Hcd & _).
    rewrite Hcd, len_app in H.
    assert (q' = []) as -> by (apply len_zero_nil; lia).
    exists p'. now rewrite app_nil_r.
  - intros [rest ->]. rewrite <- (app_nil_r op) at 2.
    rewrite commonDepth_ints_app. destruct rest; simpl; lia.
Qed.

Lemma commonDepth_eq_len_l (p op : list Z) :
  PathTs.commonDepth (ints p) (ints op) = len p <-> exists rest, op = p ++ rest.
Proof.
  split.
  - intros H. destruct (commonDepth_ints_split p op) as (pre & p' & q' & -> & -> & Hcd & _).
    rewrite Hcd, len_app in H.
    assert (p' = []) as -> by (apply len_zero_nil; lia).
    exists q'. now rewrite app_nil_r.
  - intros [rest ->]. rewrite <- (app_nil_r p) at 1.
    rewrite commonDepth_ints_app. simpl. lia.
Qed.

(** [opEndsBeforePath] of the code says [EndsBefore]. *)
Lemma opEndsBeforePath_iff (p op : list Z) :
  ((PathTs.commonDepth (ints p) (ints op) =? len (ints op) - 1) &&
   js_lt (js_get (ints op) (PathTs.commonDepth (ints p) (ints op)))
         (js_get (ints p) (PathTs.commonDepth (ints p) (ints op)))) = true
  <-> EndsBefore op p.
Proof.
  rewrite len_ints. split.
  - intros H. bool_hyps.
    destruct (commonDepth_ints_split p op) as (pre & p' & q' & -> & -> & Hcd & Hd).
    rewrite Hcd in *. rewrite len_app in H.
    destruct q' as [| i q']; [change (len []) with 0 in H; lia |].
    rewrite len_cons in H.
    assert (q' = []) as -> by (apply len_zero_nil; pose proof (len_nonneg q'); lia).
    destruct p' as [| j rest].
    + rewrite app_nil_r in H0. rewrite <- (len_ints pre) in H0.
      rewrite ints_app in H0. simpl in H0. rewrite js_get_app_r in H0.
      unfold js_get in H0. rewrite len_ints in H0.
      destruct (len pre <? 0); [discriminate |].
      rewrite nth_overflow in H0; [discriminate |].
      unfold len, ints. rewrite length_map. lia.
    + rewrite <- (len_ints pre), !ints_app in H0. simpl in H0.
      rewrite !js_get_app_r in H0. simpl in H0. bool_hyps.
      now exists pre, i, j, rest.
  - intros (pre & i & j & rest & -> & -> & Hlt).
    rewrite commonDepth_ints_app. simpl.
    destruct (Z.eqb_spec j i) as [-> | _]; [lia |].
    assert (Hl : len (pre ++ [i]) - 1 = len pre)
      by (unfold len; rewrite length_app; simpl; lia).
    rewrite Hl. replace (len pre + 0) with (len pre) by lia.
    rewrite Z.eqb_refl. simpl.
    rewrite <- (len_ints pre), !ints_app. simpl. rewrite !js_get_app_r.
    simpl. now apply Z.ltb_lt.
Qed.

(** ** [Path.transform] of [path.ts] never changes the depth, except by a move *)

(** C10. For every path [p] and every insert_node, remove_node, merge_node or
    split_node operation, a non-null result of [Path.transform] in [path.ts]
    has the length of [p]. *)
Theorem transform_keeps_length (p : Path) (operation : Operation)
    (options : option Affinity) (q : Path) :
  transformsPaths operation = true ->
  is_move_node operation = false ->
  PathTs.transform p operation options = Some q ->
  length q = length p.
Proof.
  intros Hkind Hmove H. unfold PathTs.transform in H.
  pose proof (commonDepth_bounds p (op_path operation)) as (Hc0 & Hcp & Hco).
  pose proof (len_nonneg p) as Hp.
  destruct operation; try discriminate; cbn [op_path is_move_node] in *;
    repeat case_match; simplify_eq; try reflexivity; bool_split.
  all: length_of_writes; reflexivity.
Qed.

Lemma transform_keeps_length_witness :
  length [Int 0; Int 2] = length (ints [0; 1]).
Proof.
  apply (transform_keeps_length (ints [0; 1]) (insert_node (ints [0; 0])) None);
    reflexivity.
Defined.

(** ** [adjust] and the writes of the code *)

Lemma adjust_app (pre : list Z) (x : Z) (rest : list Z) (k : Z) :
  adjust (len pre) k (pre ++ x :: rest) = pre ++ (x + k) :: rest.
Proof.
  unfold adjust, len.
  destruct (Z.of_nat (length pre) <? 0) eqn:H; bool_hyps; [lia |].
  rewrite Nat2Z.id, alter_app_r_alt by lia. now rewrite Nat.sub_diag.
Qed.

(** An integer path cut at one of its indices. *)
Lemma cut_at (p : list Z) (d : Z) :
  0 <= d < len p -> exists pre x rest, p = pre ++ x :: rest /\ len pre = d.
Proof.
  intros Hd. unfold len in *.
  destruct (lookup_lt_is_Some_2 p (Z.to_nat d)) as [x Hx]; [lia |].
  exists (take (Z.to_nat d) p), x, (drop (S (Z.to_nat d)) p). split.
  - symmetry. now apply take_drop_middle.
  - rewrite length_take. lia.
Qed.

Lemma js_add_at_adjust (p : list Z) (d k : Z) :
  d < len p -> js_add_at (ints p) d k = ints (adjust d k p).
Proof.
  intros Hd. destruct (Z.ltb_spec d 0) as [Hneg | Hpos].
  - unfold js_add_at, adjust. rewrite js_set_negative by lia.
    now apply Z.ltb_lt in Hneg as ->.
  - destruct (cut_at p d) as (pre & x & rest & -> & <-); [lia |].
    now rewrite js_add_at_ints, adjust_app.
Qed.

Lemma js_sub_at_adjust (p : list Z) (d k : Z) :
  d < len p -> js_sub_at (ints p) d k = ints (adjust d (- k) p).
Proof.
  intros Hd. destruct (Z.ltb_spec d 0) as [Hneg | Hpos].
  - unfold js_sub_at, adjust. rewrite js_set_negative by lia.
    now apply Z.ltb_lt in Hneg as ->.
  - destruct (cut_at p d) as (pre & x & rest & -> & <-); [lia |].
    rewrite js_sub_at_ints, adjust_app. now rewrite <- Z.add_opp_r.
Qed.

Lemma adjust_length (d k : Z) (p : list Z) : len (adjust d k p) = len p.
Proof.
  unfold adjust, len. destruct (d <? 0); [reflexivity |].
  now rewrite length_alter.
Qed.

(** ** [merge_node] in [path.ts] *)

(** The [merge_node] case of [transform], reduced to its three tests. *)
Lemma transform_merge_node_unfold (p op : Path) (position : Z)
    (options : option Affinity) :
  PathTs.transform p (merge_node op position) options =
  let cd := PathTs.commonDepth p op in
  let opEndsBeforePath :=
    (cd =? len op - 1) && js_lt (js_get op cd) (js_get p cd) in
  if len p <? len op then Some p
  else if (cd =? len p) || opEndsBeforePath
  then Some (js_sub_at p (len op - 1) 1)
  else if cd =? len op
  then Some (js_add_at (js_sub_at p (len op - 1) 1) (len op) position)
  else Some p.
Proof.
  unfold PathTs.transform. cbn [op_path is_move_node negb orb]. cbv zeta.
  rewrite andb_true_r.
  pose proof (commonDepth_bounds p op) as (_ & Hcp & Hco).
  destruct (Z.ltb_spec (len p) (len op)); [reflexivity |]. cbn [andb].
  destruct (Z.eqb_spec (PathTs.commonDepth p op) (len op));
    destruct (Z.eqb_spec (PathTs.commonDepth p op) (len p));
    destruct ((PathTs.commonDepth p op =? len op - 1) && _);
    try reflexivity; lia.
Qed.

Lemma EndsBefore_length (op p : list Z) : EndsBefore op p -> len op <= len p.
Proof.
  intros (pre & i & j & rest & -> & -> & _).
  unfold len. rewrite !length_app. simpl. lia.
Qed.

(** C2, amended. For [Path.transform] of [path.ts] and a merge_node at [op]
    with offset [position]: if [p] equals [op], or [op] is an earlier sibling
    of [p] or of one of the ancestors of [p], the result is [p] with the index
    at depth [op.length - 1] decremented by 1; if [p] is strictly inside the
    subtree rooted at [op], the index at depth [op.length - 1] is decremented
    by 1 and the index at depth [op.length] increased by [position];
    otherwise [p] is returned unchanged. *)
Theorem transform_merge_node (p op : list Z) (position : Z)
    (options : option Affinity) :
  (p = op \/ EndsBefore op p ->
   PathTs.transform (ints p) (merge_node (ints op) position) options =
   Some (ints (adjust (len op - 1) (-1) p))) /\
  (StrictlyInside p op ->
   PathTs.transform (ints p) (merge_node (ints op) position) options =
   Some (ints (adjust (len op) position (adjust (len op - 1) (-1) p)))) /\
  (p <> op -> ~ EndsBefore op p -> ~ StrictlyInside p op ->
   PathTs.transform (ints p) (merge_node (ints op) position) options =
   Some (ints p)).
Proof.
  rewrite transform_merge_node_unfold. cbv zeta.
  pose proof (len_nonneg p) as Hp. pose proof (len_nonneg op) as Hop.
  repeat split.
  - (* the merged node itself, or a later sibling *)
    intros Hcase.
    assert (Hlen : len op <= len p).
    { destruct Hcase as [-> | H]; [lia | now apply EndsBefore_length]. }
    assert (Htest :
      (PathTs.commonDepth (ints p) (ints op) =? len (ints p)) ||
      ((PathTs.commonDepth (ints p) (ints op) =? len (ints op) - 1) &&
       js_lt (js_get (ints op) (PathTs.commonDepth (ints p) (ints op)))
             (js_get (ints p) (PathTs.commonDepth (ints p) (ints op)))) = true).
    { apply orb_true_iff. destruct Hcase as [-> | H].
      - left. apply Z.eqb_eq. rewrite len_ints.
        apply commonDepth_eq_len_r. exists []. now rewrite app_nil_r.
      - right. now apply opEndsBeforePath_iff. }
    rewrite Htest, !len_ints.
    destruct (Z.ltb_spec (len p) (len op)); [lia |].
    rewrite js_sub_at_adjust by lia. reflexivity.
  - (* strictly inside the merged node *)
    intros (c & rest & ->).
    assert (Hcd : PathTs.commonDepth (ints (op ++ c :: rest)) (ints op) = len op).
    { apply commonDepth_eq_len_r. now exists (c :: rest). }
    rewrite Hcd, !len_ints, len_app, len_cons.
    pose proof (len_nonneg rest).
    destruct (Z.ltb_spec (len op + (1 + len rest)) (len op)); [lia |].
    destruct (Z.eqb_spec (len op) (len op + (1 + len rest))); [lia |].
    destruct (Z.eqb_spec (len op) (len op - 1)); [lia |].
    rewrite Z.eqb_refl. cbn [andb orb].
    rewrite js_sub_at_adjust by (rewrite len_app, len_cons; lia).
    rewrite js_add_at_adjust
      by (rewrite adjust_length, len_app, len_cons; lia).
    reflexivity.
  - (* any other path *)
    intros Hne Hnb Hni. rewrite !len_ints.
    destruct (Z.ltb_spec (len p) (len op)); [reflexivity |].
    destruct (_ && _) eqn:Hb.
    { exfalso. apply Hnb. apply opEndsBeforePath_iff. now rewrite len_ints. }
    rewrite orb_false_r.
    destruct (Z.eqb_spec (PathTs.commonDepth (ints p) (ints op)) (len p)) as [He | _].
    { exfalso. apply commonDepth_eq_len_l in He as [rest ->]. apply Hne.
      rewrite len_app in *. pose proof (len_nonneg rest).
      assert (rest = []) as -> by (apply len_zero_nil; lia).
      now rewrite app_nil_r. }
    destruct (Z.eqb_spec (PathTs.commonDepth (ints p) (ints op)) (len op)) as [He | _];
      [| reflexivity].
    exfalso. apply commonDepth_eq_len_r in He as [[| c rest] ->].
    + apply Hne. now rewrite app_nil_r.
    + apply Hni. now exists c, rest.
Qed.

Lemma transform_merge_node_witness :
  PathTs.transform (ints [1; 2]) (merge_node (ints [1; 2]) 3) None
    = Some (ints [1; 1]) /\
  PathTs.transform (ints [1; 4; 0]) (merge_node (ints [1; 2]) 3) None
    = Some (ints [1; 3; 0]) /\
  PathTs.transform (ints [1; 2; 5]) (merge_node (ints [1; 2]) 3) None
    = Some (ints [1; 1; 8]) /\
  PathTs.transform (ints [1; 0]) (merge_node (ints [1; 2]) 3) None
    = Some (ints [1; 0]).
Proof.
  split; [| split; [| split]].
  - apply (proj1 (transform_merge_node [1; 2] [1; 2] 3 None)).
    left. reflexivity.
  - apply (proj1 (transform_merge_node [1; 4; 0] [1; 2] 3 None)).
    right. exists [1], 2, 4, [0]. split; [| split]; [reflexivity .. | lia].
  - apply (proj1 (proj2 (transform_merge_node [1; 2; 5] [1; 2] 3 None))).
    exists 5, []. reflexivity.
  - apply (proj2 (proj2 (transform_merge_node [1; 0] [1; 2] 3 None))).
    + discriminate.
    + intros H. apply opEndsBeforePath_iff in H. discriminate H.
    + intros (c & rest & H). discriminate H.
Defined.

(** C2 as it is worded reads the sibling test the other way round: [p] an
    earlier sibling of [op]. Such a path is not moved by the merge: [[0]]
    stays [[0]] when the node at [[1]] is merged away, it does not become
    [[-1]]. *)
Lemma transform_merge_node_earlier_path_unchanged :
  EndsBefore [0] [1] /\
  PathTs.transform (ints [0]) (merge_node (ints [1]) 3) None = Some (ints [0]) /\
  PathTs.transform (ints [0]) (merge_node (ints [1]) 3) None
    <> Some (ints (adjust (len [1] - 1) (-1) [0])).
Proof.
  split; [| split].
  - exists [], 0, 1, []. split; [| split]; [reflexivity .. | lia].
  - reflexivity.
  - discriminate.
Qed.

(** ** [move_node] onto itself or into itself *)

(** In [path.ts] a path at or below a node that is moved onto itself, or into
    its own subtree, is returned unchanged. *)
Lemma transform_move_node_noop (op rest rest' : list Z)
    (options : option Affinity) :
  PathTs.transform (ints (op ++ rest)) (move_node (ints op) (ints (op ++ rest')))
    options = Some (ints (op ++ rest)).
Proof.
  unfold PathTs.transform. cbn [op_path is_move_node negb orb]. cbv zeta.
  assert (Hcd : PathTs.commonDepth (ints (op ++ rest)) (ints op) = len (ints op)).
  { rewrite len_ints. apply commonDepth_eq_len_r. now exists rest. }
  assert (Hbetween :
    PathTs.commonDepth (ints op) (ints (op ++ rest')) = len (ints op)).
  { rewrite len_ints. apply commonDepth_eq_len_l. now exists rest'. }
  rewrite Hcd, Hbetween, Z.eqb_refl.
  destruct (Z.ltb_spec (len (ints (op ++ rest))) (len (ints op))) as [Hlt | _].
  { rewrite !len_ints, len_app in Hlt. pose proof (len_nonneg rest). lia. }
  reflexivity.
Qed.

(** C5, at the input where [unnamed/part_000] departs from it. The node at
    [[0]] is moved to [[0, 1]], a descendant of itself; [path.ts] leaves the
    path [[0]] alone, [unnamed/part_000] tests [cdBetween === newOp.length]
    instead of [op.length] and rewrites the path to [[0, 1]]. *)
Theorem part000_move_node_into_itself :
  PathTs.transform (ints [0]) (move_node (ints [0]) (ints [0; 1])) None
    = Some (ints [0]) /\
  Part000.transform (Some (ints [0])) (move_node (ints [0]) (ints [0; 1])) None
    = Some (ints [0; 1]).
Proof. split; reflexivity. Qed.

(** ** [Path.previous] *)

(** [previous] of [path.ts]: an exception for the root and for a first child,
    the last index decremented otherwise. *)
Lemma previous_path_ts (pre : list Z) (i : Z) :
  PathTs.previous [] = Throw PreviousOfRoot /\
  (i <= 0 -> PathTs.previous (ints (pre ++ [i])) = Throw PreviousOfFirst) /\
  (0 < i -> PathTs.previous (ints (pre ++ [i])) = Ok (ints (pre ++ [i - 1]))).
Proof.
  split; [reflexivity |].
  assert (Hlen : len (ints (pre ++ [i])) = len (ints pre) + 1).
  { rewrite ints_app, len_app. reflexivity. }
  assert (Hlast : js_get (ints (pre ++ [i])) (len (ints (pre ++ [i])) - 1) = Int i).
  { rewrite Hlen, Z.add_simpl_r, ints_app. apply (js_get_app_r _ (Int i) []). }
  unfold PathTs.previous. rewrite Hlast.
  pose proof (len_nonneg (ints pre)).
  destruct (Z.eqb_spec (len (ints (pre ++ [i]))) 0) as [H0 | _]; [lia |].
  unfold js_le, js_sub, slice_init. rewrite !ints_app.
  change (ints [i]) with [Int i]. change (ints [i - 1]) with [Int (i - 1)].
  rewrite removelast_last.
  split; intros Hi.
  - now apply Z.leb_le in Hi as ->.
  - now apply Z.leb_gt in Hi as ->.
Qed.

(** [previous] of [unnamed/part_000] writes [last] back where [last - 1] is
    due: it returns its argument. *)
Lemma previous_part000 (pre : list Z) (i : Z) :
  0 < i -> Part000.previous (ints (pre ++ [i])) = Ok (ints (pre ++ [i])).
Proof.
  intros Hi.
  assert (Hlen : len (ints (pre ++ [i])) = len (ints pre) + 1).
  { rewrite ints_app, len_app. reflexivity. }
  unfold Part000.previous. rewrite Hlen, Z.add_simpl_r, ints_app.
  change (ints [i]) with [Int i].
  rewrite js_get_app_r, js_set_app_r. cbn [js_le].
  pose proof (len_nonneg (ints pre)).
  destruct (Z.eqb_spec (len (ints pre) + 1) 0) as [H0 | _]; [lia |].
  now apply Z.leb_gt in Hi as ->.
Qed.

(** C6, at the input where [unnamed/part_000] departs from it: the previous
    path of [[1]] is [[0]] in [path.ts] and [[1]] itself in
    [unnamed/part_000]; the two exceptions are raised by both. *)
Theorem part000_previous_returns_argument :
  PathTs.previous (ints [1]) = Ok (ints [0]) /\
  Part000.previous (ints [1]) = Ok (ints [1]) /\
  Part000.previous [] = Throw PreviousOfRoot /\
  Part000.previous (ints [0]) = Throw PreviousOfFirst.
Proof. repeat split. Qed.

(** ** The two implementations of [Path.transform] *)

(** C9, at an input where the two implementations differ: [[2, 5]] through a
    merge_node at [[1]] with position 3 is [[1, 5]] for [path.ts] and
    [[1, 8]] for [unnamed/part_000], which also adds the position when the
    merged node is only an earlier sibling. *)
Theorem transform_implementations_differ :
  PathTs.transform (ints [2; 5]) (merge_node (ints [1]) 3) None
    = Some (ints [1; 5]) /\
  Part000.transform (Some (ints [2; 5])) (merge_node (ints [1]) 3) None
    = Some (ints [1; 8]) /\
  Part000.transform (Some (ints [2; 5])) (merge_node (ints [1]) 3) None
    <> PathTs.transform (ints [2; 5]) (merge_node (ints [1]) 3) None.
Proof. split; [| split]; [reflexivity .. | discriminate]. Qed.

(** The other inputs on which they differ: a merge_node at the path itself,
    and a move_node to a later sibling seen from that sibling. *)
Lemma transform_implementations_differ_more :
  PathTs.transform (ints [1]) (merge_node (ints [1]) 3) None = Some (ints [0]) /\
  Part000.transform (Some (ints [1])) (merge_node (ints [1]) 3) None
    = Some [Int 0; NaN] /\
  PathTs.transform (ints [1]) (move_node (ints [0]) (ints [1])) None
    = Some (ints [0]) /\
  Part000.transform (Some (ints [1])) (move_node (ints [0]) (ints [1])) None
    = Some (ints [1]).
Proof. repeat split. Qed.

(** On insert_node, remove_node and split_node the two agree. *)
Lemma transform_implementations_agree (p : Path) (operation : Operation)
    (options : option Affinity) :
  match operation with
  | insert_node _ | remove_node _ | split_node _ _ => True
  | _ => False
  end ->
  Part000.transform (Some p) operation options =
  PathTs.transform p operation options.
Proof.
  intros Hkind. unfold Part000.transform, PathTs.transform.
  rewrite !commonDepth_part000.
  pose proof (commonDepth_bounds p (op_path operation)) as (Hc0 & Hcp & Hco).
  destruct operation; try contradiction; cbn [op_path is_move_node] in *;
    repeat case_match; simplify_eq; try reflexivity; bool_split;
    try lia; congruence.
Qed.

(** ** [Path.equals] and [Path.next] on integer paths *)

Lemma every_eq_refl (p : list Z) : every_eq (ints p) (ints p) = true.
Proof.
  induction p as [| x p IH]; [reflexivity |].
  cbn [ints map every_eq hd tl strict_eq]. now rewrite Z.eqb_refl.
Qed.

Lemma equals_refl (p : list Z) : PathTs.equals (ints p) (ints p) = true.
Proof. unfold PathTs.equals. now rewrite Z.eqb_refl, every_eq_refl. Qed.

Lemma next_path_ts (pre : list Z) (i : Z) :
  PathTs.next (ints (pre ++ [i])) = Ok (ints (pre ++ [i + 1])).
Proof.
  assert (Hlen : len (ints (pre ++ [i])) = len (ints pre) + 1).
  { rewrite ints_app, len_app. reflexivity. }
  unfold PathTs.next. rewrite Hlen, Z.add_simpl_r, !ints_app.
  change (ints [i]) with [Int i]. change (ints [i + 1]) with [Int (i + 1)].
  rewrite js_get_app_r. unfold slice_init. rewrite removelast_last.
  pose proof (len_nonneg (ints pre)).
  destruct (Z.eqb_spec (len (ints pre) + 1) 0) as [H0 | _]; [lia | reflexivity].
Qed.

Lemma next_part000 (pre : list Z) (i : Z) :
  Part000.next (ints (pre ++ [i])) = Ok (ints (pre ++ [i + 1])).
Proof.
  assert (Hlen : len (ints (pre ++ [i])) = len pre + 1).
  { rewrite len_ints, len_app. reflexivity. }
  unfold Part000.next. rewrite Hlen, Z.add_simpl_r, js_add_at_ints.
  pose proof (len_nonneg pre).
  destruct (Z.eqb_spec (len pre + 1) 0) as [H0 | _]; [lia | reflexivity].
Qed.

(** ** [Point.transform] through a split of its own leaf *)

(** C4. For a point [{path, offset}] and a split_node at that path with offset
    [position]: when [position = offset] and the affinity is [null] the result
    is [null]; when [position < offset], or [position = offset] with affinity
    forward, it is the point at the next sibling path with offset
    [offset - position]; otherwise the point is returned unchanged. So
    [{path: [0], offset: 5}] through a split at [{path: [0], position: 3}] with
    affinity forward is [{path: [1], offset: 2}]. *)
Theorem point_transform_split_node (pre : list Z) (i off position : Z)
    (options : option Affinity) :
  let path := ints (pre ++ [i]) in
  let result :=
    Point.transform (P := path_ts) (mkPoint path off)
      (split_node path position) options in
  (position = off /\ affinity_of options = null -> result = Ok None) /\
  (position < off \/ (position = off /\ affinity_of options = forward) ->
   result = Ok (Some (mkPoint (ints (pre ++ [i + 1])) (off - position)))) /\
  (~ (position = off /\ affinity_of options = null) ->
   ~ (position < off \/ (position = off /\ affinity_of options = forward)) ->
   result = Ok (Some (mkPoint path off))) /\
  Point.transform (P := path_ts) (mkPoint (ints [0]) 5)
    (split_node (ints [0]) 3) (Some forward) = Ok (Some (mkPoint (ints [1]) 2)).
Proof.
  cbv zeta. unfold Point.transform.
  cbn [path offset op_path Path_equals Path_next path_ts].
  rewrite equals_refl, next_path_ts. cbn [rbind].
  split; [| split; [| split]]; [| | | reflexivity].
  - intros [-> ->]. now rewrite Z.eqb_refl.
  - intros [Hlt | [-> ->]].
    + destruct (Z.eqb_spec position off); [lia |].
      apply Z.ltb_lt in Hlt as ->. reflexivity.
    + now rewrite Z.eqb_refl, orb_true_r.
  - intros Hnull Hmove.
    destruct (Z.eqb_spec position off) as [He | Hne];
      destruct (Z.ltb_spec position off) as [Hlt | Hge];
      destruct (affinity_of options) eqn:Ha; cbn [andb orb];
      try reflexivity; exfalso; tauto.
Qed.

Lemma point_transform_split_node_witness :
  Point.transform (P := path_ts) (mkPoint (ints [0; 2]) 4)
    (split_node (ints [0; 2]) 4) (Some null) = Ok None /\
  Point.transform (P := path_ts) (mkPoint (ints [0; 2]) 4)
    (split_node (ints [0; 2]) 1) None = Ok (Some (mkPoint (ints [0; 3]) 3)) /\
  Point.transform (P := path_ts) (mkPoint (ints [0; 2]) 4)
    (split_node (ints [0; 2]) 4) (Some backward)
    = Ok (Some (mkPoint (ints [0; 2]) 4)).
Proof.
  split; [| split].
  - apply (proj1 (point_transform_split_node [0] 2 4 4 (Some null))).
    split; reflexivity.
  - apply (proj1 (proj2 (point_transform_split_node [0] 2 4 1 None))).
    left. lia.
  - apply (proj1 (proj2 (proj2
      (point_transform_split_node [0] 2 4 4 (Some backward))))).
    + intros [_ H]. discriminate H.
    + intros [H | [_ H]]; [lia | discriminate H].
Defined.

(** A point at the root has no next sibling: moving it across the split
    raises the exception of [Path.next]. No text leaf is at the root. *)
Lemma point_transform_split_node_root (off position : Z) :
  position < off ->
  Point.transform (P := path_ts) (mkPoint [] off) (split_node [] position) None
  = Throw NextOfRoot.
Proof.
  intros Hlt. unfold Point.transform. cbn.
  destruct (Z.eqb_spec position off); [lia |].
  now apply Z.ltb_lt in Hlt as ->.
Qed.

(** ** A merge never destroys a path

    [transformTextDiff] relies on it when it asserts [Path.transform(path,
    op)!] for a merge_node. *)
Lemma transform_merge_node_not_null (p op : Path) (position : Z)
    (options : option Affinity) :
  PathTs.transform p (merge_node op position) options <> None /\
  Part000.transform (Some p) (merge_node op position) options <> None.
Proof.
  split.
  - rewrite transform_merge_node_unfold. cbv zeta.
    repeat case_match; discriminate.
  - unfold Part000.transform. cbn [op_path is_move_node].
    repeat case_match; discriminate.
Qed.

(** ** [transformTextDiff] through a split of its own leaf *)

(** C3, amended. For a text diff and a split_node on its leaf with offset
    [position]: when [position <= start] the diff moves to the next sibling path
    with start and end decreased by [position] and the text unchanged; when
    [start < position < end] it stays on its path and its end becomes
    [position]; when [position >= end] and [position > start] it is returned
    unchanged. *)
Theorem transformTextDiff_split_node (pre : list Z) (i id s e : Z)
    (t : jsstring) (position : Z) :
  let p := ints (pre ++ [i]) in
  let d := {| td_id := id; td_path := p; td_diff := mkStringDiff s e t |} in
  let result := DiffText.transformTextDiff (P := path_ts) d (split_node p position) in
  (position <= s ->
   result = Ok (Some {| td_id := id; td_path := ints (pre ++ [i + 1]);
                        td_diff := mkStringDiff (s - position) (e - position) t |})) /\
  (s < position < e ->
   result = Ok (Some {| td_id := id; td_path := p;
                        td_diff := mkStringDiff s position t |})) /\
  (e <= position -> s < position -> result = Ok (Some d)).
Proof.
  cbv zeta. unfold DiffText.transformTextDiff.
  cbn [td_path td_diff td_id start end_ text op_path Path_equals Path_next path_ts].
  rewrite equals_refl, next_path_ts. cbn [rbind].
  split; [| split].
  - intros H. now apply Z.leb_le in H as ->.
  - intros [Hs He]. apply Z.leb_gt in Hs as ->. apply Z.ltb_lt in He as He'.
    rewrite He'. now rewrite Z.min_l by lia.
  - intros He Hs. apply Z.leb_gt in Hs as ->. now apply Z.ltb_ge in He as ->.
Qed.

Lemma transformTextDiff_split_node_witness :
  DiffText.transformTextDiff (P := path_ts)
    (mkTextDiff 7 (ints [0; 1]) (mkStringDiff 4 6 (js "ab")))
    (split_node (ints [0; 1]) 3)
  = Ok (Some (mkTextDiff 7 (ints [0; 2]) (mkStringDiff 1 3 (js "ab")))) /\
  DiffText.transformTextDiff (P := path_ts)
    (mkTextDiff 7 (ints [0; 1]) (mkStringDiff 4 6 (js "ab")))
    (split_node (ints [0; 1]) 5)
  = Ok (Some (mkTextDiff 7 (ints [0; 1]) (mkStringDiff 4 5 (js "ab")))) /\
  DiffText.transformTextDiff (P := path_ts)
    (mkTextDiff 7 (ints [0; 1]) (mkStringDiff 4 6 (js "ab")))
    (split_node (ints [0; 1]) 6)
  = Ok (Some (mkTextDiff 7 (ints [0; 1]) (mkStringDiff 4 6 (js "ab")))).
Proof.
  split; [| split].
  - apply (proj1 (transformTextDiff_split_node [0] 1 7 4 6 (js "ab") 3)). lia.
  - apply (proj1 (proj2 (transformTextDiff_split_node [0] 1 7 4 6 (js "ab") 5))).
    lia.
  - apply (proj2 (proj2 (transformTextDiff_split_node [0] 1 7 4 6 (js "ab") 6)));
      lia.
Defined.

(** C3 as it is worded returns the diff unchanged whenever [position >= end].
    A diff that only inserts (start = end) and sits at the split point
    satisfies this and [position <= start] at once; the code tests the latter
    first and moves the diff to the next sibling. *)
Lemma transformTextDiff_split_node_at_empty_diff :
  let d := mkTextDiff 7 (ints [0]) (mkStringDiff 2 2 (js "x")) in
  2 >= end_ (td_diff d) /\
  DiffText.transformTextDiff (P := path_ts) d (split_node (ints [0]) 2)
  = Ok (Some (mkTextDiff 7 (ints [1]) (mkStringDiff 0 0 (js "x")))) /\
  DiffText.transformTextDiff (P := path_ts) d (split_node (ints [0]) 2)
  <> Ok (Some d).
Proof.
  cbv zeta. split; [| split].
  - simpl. lia.
  - reflexivity.
  - discriminate.
Qed.

(** ** Collapsed ranges stay collapsed *)

(** On integer paths a range whose anchor is its focus is collapsed for the
    test of the code. *)
Lemma isCollapsed_ints (p : list Z) (off : Z) :
  Range.isCollapsed (P := path_ts)
    (mkRange (mkPoint (ints p) off) (mkPoint (ints p) off)) = true /\
  Range.isCollapsed (P := part_000)
    (mkRange (mkPoint (ints p) off) (mkPoint (ints p) off)) = true.
Proof.
  unfold Range.isCollapsed, Point.equals. cbn.
  fold (ints p). unfold Part000.equals. fold (PathTs.equals (ints p) (ints p)).
  now rewrite Z.eqb_refl, equals_refl.
Qed.

(** C8. For a collapsed range and any operation, a non-null result of
    [transformPendingRange], and of [normalizeRange], is collapsed: its focus
    is its anchor, and that anchor is the rebased (normalized) anchor of the
    range. The focus of the range is not rebased. *)
Theorem collapsed_range_stays_collapsed {P : PathInterface} {E : EditorApi}
    (fuel : nat) (editor : Editor) (range : Range) (op : Operation) (r : Range) :
  Range.isCollapsed range = true ->
  (DiffText.transformPendingRange editor range op = Ok (Some r) ->
   focus r = anchor r /\
   DiffText.transformPendingPoint editor (anchor range) op = Ok (Some (anchor r))) /\
  (DiffText.normalizeRange fuel editor range = Ok (Some r) ->
   focus r = anchor r /\
   DiffText.normalizePoint fuel editor (anchor range) = Ok (Some (anchor r))).
Proof.
  intros Hcollapsed.
  unfold DiffText.transformPendingRange, DiffText.normalizeRange.
  rewrite Hcollapsed. split.
  - destruct (DiffText.transformPendingPoint editor (anchor range) op)
      as [[a |] | |]; cbn [rbind]; intros H; simplify_eq. now split.
  - destruct (DiffText.normalizePoint fuel editor (anchor range))
      as [[a |] | |]; cbn [rbind]; intros H; simplify_eq. now split.
Qed.

Lemma collapsed_range_stays_collapsed_witness :
  let r := mkRange (mkPoint (ints [1]) 2) (mkPoint (ints [1]) 2) in
  let n := mkRange (mkPoint (ints [0]) 5) (mkPoint (ints [0]) 5) in
  (focus r = anchor r /\
   DiffText.transformPendingPoint (P := path_ts) (E := one_leaf) tt
     (mkPoint (ints [0]) 5) (split_node (ints [0]) 3) = Ok (Some (anchor r))) /\
  (focus n = anchor n /\
   DiffText.normalizePoint (P := path_ts) (E := one_leaf) 0 tt
     (mkPoint (ints [0]) 5) = Ok (Some (anchor n))).
Proof.
  cbv zeta. split.
  - apply (proj1 (collapsed_range_stays_collapsed (P := path_ts) (E := one_leaf)
      0 tt (mkRange (mkPoint (ints [0]) 5) (mkPoint (ints [0]) 5))
      (split_node (ints [0]) 3)
      (mkRange (mkPoint (ints [1]) 2) (mkPoint (ints [1]) 2)) eq_refl)).
    reflexivity.
  - apply (proj2 (collapsed_range_stays_collapsed (P := path_ts) (E := one_leaf)
      0 tt (mkRange (mkPoint (ints [0]) 5) (mkPoint (ints [0]) 5))
      (split_node (ints [0]) 3)
      (mkRange (mkPoint (ints [0]) 5) (mkPoint (ints [0]) 5)) eq_refl)).
    reflexivity.
Defined.

(** ** [normalizeStringDiff] on the example of the specification *)

(** C7, amended. [normalizeStringDiff("hello world", {start: 0, end: 11, text:
    "hello earth"})] is [{start: 6, end: 11, text: "earth"}]: the common prefix
    ["hello "] is stripped, and no suffix is shared (["d"] against ["h"]). *)
Theorem normalizeStringDiff_hello_earth :
  DiffText.normalizeStringDiff (js "hello world") (mkStringDiff 0 11 (js "hello earth"))
  = Some (mkStringDiff 6 11 (js "earth")).
Proof. reflexivity. Qed.

(** C7 as it is worded has the end at 10. *)
Lemma normalizeStringDiff_hello_earth_end_not_10 :
  DiffText.normalizeStringDiff (js "hello world") (mkStringDiff 0 11 (js "hello earth"))
  <> Some (mkStringDiff 6 10 (js "earth")).
Proof. discriminate. Qed.

(** ** Slices *)

(** With bounds that are not negative, [slice] is [take] after [drop]. *)
Lemma str_slice_nonneg (s : jsstring) (a b : Z) :
  0 <= a -> 0 <= b ->
  str_slice s a b = take (Z.to_nat b - Z.to_nat a) (drop (Z.to_nat a) s).
Proof.
  intros Ha Hb. unfold str_slice, len.
  destruct (Z.ltb_spec a 0); [lia |]. destruct (Z.ltb_spec b 0); [lia |].
  destruct (Z.le_gt_cases a (Z.of_nat (length s))) as [Hle | Hgt].
  - rewrite (Z.min_l a) by lia.
    destruct (Z.le_gt_cases b (Z.of_nat (length s))) as [Hble | Hbgt].
    + rewrite Z.min_l by lia. f_equal. lia.
    + rewrite Z.min_r by lia.
      rewrite !take_ge; [reflexivity | |]; rewrite length_drop; lia.
  - rewrite (Z.min_r a) by lia. rewrite Nat2Z.id.
    rewrite !drop_ge by lia. now rewrite !take_nil.
Qed.

Lemma str_slice_from_nonneg (s : jsstring) (a : Z) :
  0 <= a -> str_slice_from s a = drop (Z.to_nat a) s.
Proof.
  intros Ha. unfold str_slice_from.
  rewrite str_slice_nonneg by (try apply len_nonneg; lia).
  apply take_ge. rewrite length_drop. unfold len. lia.
Qed.

Lemma str_slice_0 (s : jsstring) (b : Z) :
  0 <= b -> str_slice s 0 b = take (Z.to_nat b) s.
Proof.
  intros Hb. rewrite str_slice_nonneg by lia.
  change (Z.to_nat 0) with 0%nat. rewrite drop_0. f_equal. lia.
Qed.

(** One diff applied to a text. *)
Lemma applyStringDiff_one (t : jsstring) (d : StringDiff) :
  0 <= start d -> 0 <= end_ d ->
  DiffText.applyStringDiff t [d] =
  take (Z.to_nat (start d)) t ++ text d ++ drop (Z.to_nat (end_ d)) t.
Proof.
  intros Hs He. unfold DiffText.applyStringDiff. cbn [fold_left].
  now rewrite str_slice_0, str_slice_from_nonneg.
Qed.

Lemma applyStringDiff_two (t : jsstring) (a b : StringDiff) :
  DiffText.applyStringDiff t [a; b] =
  DiffText.applyStringDiff (DiffText.applyStringDiff t [a]) [b].
Proof. reflexivity. Qed.

(** [charAt] inside the string. *)
Lemma charAt_inside (s : jsstring) (i : Z) :
  0 <= i < len s -> charAt s i = take 1 (drop (Z.to_nat i) s).
Proof.
  intros [H0 H1]. unfold charAt.
  apply Z.leb_le in H0 as ->. now apply Z.ltb_lt in H1 as ->.
Qed.

(** ** The two scanning loops *)

(** The prefix loop stops within its bound, on a prefix that the two strings
    share. *)
Lemma longestCommonPrefixLength_loop_spec (str another : jsstring) (length : Z)
    (fuel : nat) (i : Z) :
  0 <= i -> i + Z.of_nat fuel = length ->
  length <= len str -> length <= len another ->
  take (Z.to_nat i) str = take (Z.to_nat i) another ->
  let r := DiffText.longestCommonPrefixLength_loop str another length fuel i in
  i <= r <= length /\ take (Z.to_nat r) str = take (Z.to_nat r) another.
Proof.
  revert i. induction fuel as [| fuel IH]; intros i Hi Hfuel Hs Ha Hpre; cbn.
  - replace length with i by lia. split; [lia | assumption].
  - unfold str_neq. rewrite !charAt_inside by lia.
    case_bool_decide as Hc; cbn [negb].
    + destruct (IH (i + 1)) as [Hr Heq]; try lia.
      * replace (Z.to_nat (i + 1)) with (Z.to_nat i + 1)%nat by lia.
        rewrite <- !take_take_drop. now rewrite Hpre, Hc.
      * split; [lia | assumption].
    + split; [lia | assumption].
Qed.

Lemma longestCommonPrefixLength_spec (str another : jsstring) :
  let r := DiffText.longestCommonPrefixLength str another in
  0 <= r <= Z.min (len str) (len another) /\
  take (Z.to_nat r) str = take (Z.to_nat r) another.
Proof.
  unfold DiffText.longestCommonPrefixLength.
  pose proof (len_nonneg str). pose proof (len_nonneg another).
  apply longestCommonPrefixLength_loop_spec; try lia. reflexivity.
Qed.

(** The suffix loop stops within its bound, on a suffix that the two strings
    share. *)
Lemma longestCommonSuffixLength_loop_spec (str another : jsstring) (length : Z)
    (fuel : nat) (i : Z) :
  0 <= i -> i + Z.of_nat fuel = length ->
  length <= len str -> length <= len another ->
  drop (Z.to_nat (len str - i)) str = drop (Z.to_nat (len another - i)) another ->
  let r := DiffText.longestCommonSuffixLength_loop str another length fuel i in
  i <= r <= length /\
  drop (Z.to_nat (len str - r)) str = drop (Z.to_nat (len another - r)) another.
Proof.
  revert i. induction fuel as [| fuel IH]; intros i Hi Hfuel Hs Ha Hsuf; cbn.
  - replace length with i by lia. split; [lia | assumption].
  - unfold str_neq. rewrite !charAt_inside by lia.
    case_bool_decide as Hc; cbn [negb].
    + destruct (IH (i + 1)) as [Hr Heq]; try lia.
      * rewrite <- (take_drop 1 (drop (Z.to_nat (len str - (i + 1))) str)).
        rewrite <- (take_drop 1 (drop (Z.to_nat (len another - (i + 1))) another)).
        rewrite !drop_drop.
        replace (Z.to_nat (len str - (i + 1)) + 1)%nat
          with (Z.to_nat (len str - i)) by lia.
        replace (Z.to_nat (len another - (i + 1)) + 1)%nat
          with (Z.to_nat (len another - i)) by lia.
        replace (len str - (i + 1)) with (len str - i - 1) by lia.
        replace (len another - (i + 1)) with (len another - i - 1) by lia.
        now rewrite Hsuf, Hc.
      * split; [lia | assumption].
    + split; [lia | assumption].
Qed.

Lemma longestCommonSuffixLength_spec (str another : jsstring) (max : Z) :
  0 <= max ->
  let r := DiffText.longestCommonSuffixLength str another max in
  0 <= r <= Z.min (Z.min (len str) (len another)) max /\
  drop (Z.to_nat (len str - r)) str = drop (Z.to_nat (len another - r)) another.
Proof.
  intros Hmax. unfold DiffText.longestCommonSuffixLength.
  pose proof (len_nonneg str). pose proof (len_nonneg another).
  apply longestCommonSuffixLength_loop_spec; try lia.
  rewrite !Z.sub_0_r. unfold len. rewrite !Nat2Z.id.
  now rewrite !drop_all.
Qed.

(** ** [normalizeStringDiff] keeps the effect of a diff *)

(** Dropping a prefix of [P] and a suffix of [S] elements that the removed
    span and the replacement share leaves the outcome of the replacement as it
    was. *)
Lemma trim_affixes {A : Type} (t txt : list A) (s e P S : nat) :
  (s <= e <= length t)%nat -> (P + S <= e - s)%nat -> (P + S <= length txt)%nat ->
  take P (take (e - s) (drop s t)) = take P txt ->
  drop (e - s - S) (take (e - s) (drop s t)) = drop (length txt - S) txt ->
  take (s + P) t ++ take (length txt - S - P) (drop P txt) ++ drop (e - S) t =
  take s t ++ txt ++ drop e t.
Proof.
  intros Hse HPS HPS' Hpre Hsuf.
  rewrite <- (take_take_drop t s P).
  rewrite take_take, Nat.min_l in Hpre by lia. rewrite Hpre.
  replace (e - S)%nat with (s + (e - s - S))%nat by lia.
  rewrite <- (drop_drop t (e - s - S) s).
  rewrite <- (drop_take_drop (drop s t) (e - s - S) (e - s)) by lia.
  rewrite Hsuf, drop_drop. replace (s + (e - s))%nat with e by lia.
  rewrite <- !app_assoc. f_equal.
  rewrite (app_assoc (take P txt)), take_take_drop.
  replace (P + (length txt - S - P))%nat with (length txt - S)%nat by lia.
  now rewrite (app_assoc (take _ txt)), take_drop.
Qed.

(** The round trip of the specification: the normalized diff has the effect
    of the diff, and [null] stands for a diff without effect. *)
Lemma normalizeStringDiff_spec (t : jsstring) (d : StringDiff) :
  fits t d ->
  match DiffText.normalizeStringDiff t d with
  | Some m => DiffText.applyStringDiff t [m] = DiffText.applyStringDiff t [d]
  | None => DiffText.applyStringDiff t [d] = t
  end.
Proof.
  intros (Hs & Hse & He). unfold DiffText.normalizeStringDiff.
  set (removedText := str_slice t (start d) (end_ d)).
  assert (Hrem : removedText =
                 take (Z.to_nat (end_ d) - Z.to_nat (start d))
                      (drop (Z.to_nat (start d)) t))
    by (apply str_slice_nonneg; lia).
  assert (Hrlen : len removedText = end_ d - start d).
  { rewrite Hrem. unfold len in *. rewrite length_take, length_drop. lia. }
  pose proof (longestCommonPrefixLength_spec removedText (text d)) as [Hp Hpre].
  set (prefixLength := DiffText.longestCommonPrefixLength removedText (text d)) in *.
  set (max := Z.min (len removedText - prefixLength) (len (text d) - prefixLength)).
  assert (Hmax : 0 <= max) by (unfold max; lia).
  pose proof (longestCommonSuffixLength_spec removedText (text d) max Hmax)
    as [Hq Hsuf].
  set (suffixLength := DiffText.longestCommonSuffixLength removedText (text d) max) in *.
  pose proof (len_nonneg (text d)) as Htl.
  assert (Htrim :
    take (Z.to_nat (start d + prefixLength)) t ++
    str_slice (text d) prefixLength (len (text d) - suffixLength) ++
    drop (Z.to_nat (end_ d - suffixLength)) t =
    take (Z.to_nat (start d)) t ++ text d ++ drop (Z.to_nat (end_ d)) t).
  { rewrite str_slice_nonneg by lia.
    rewrite <- (trim_affixes t (text d) (Z.to_nat (start d)) (Z.to_nat (end_ d))
                  (Z.to_nat prefixLength) (Z.to_nat suffixLength)).
    - unfold len in *. repeat f_equal; lia.
    - unfold len in *. lia.
    - lia.
    - unfold len in *. lia.
    - now rewrite <- Hrem.
    - rewrite <- Hrem. unfold len in *.
      replace (Z.to_nat (end_ d) - Z.to_nat (start d) - Z.to_nat suffixLength)%nat
        with (Z.to_nat (Z.of_nat (length removedText) - suffixLength)) by lia.
      replace (length (text d) - Z.to_nat suffixLength)%nat
        with (Z.to_nat (Z.of_nat (length (text d)) - suffixLength)) by lia.
      assumption. }
  cbn [start end_ text].
  destruct (_ && _) eqn:Hnull.
  - (* nothing is left of the diff *)
    bool_hyps. rewrite applyStringDiff_one by lia. rewrite <- Htrim.
    assert (Hempty :
      str_slice (text d) prefixLength (len (text d) - suffixLength) = []).
    { apply len_zero_nil. assumption. }
    rewrite Hempty. cbn [app]. rewrite H. apply take_drop.
  - rewrite !applyStringDiff_one; cbn [start end_ text]; try lia.
    assumption.
Qed.

(** ** [mergeStringDiffs] *)

(** The merged diff on lists. [S], [M] and [E] are its start, the end of the
    slice taken from the result, and its end; [b] either reaches the end of
    the text that [a] inserted, or ends within it. The result agrees with the
    original text before [S], and from [M] on with the original text from [E]
    on. *)
Lemma merge_lists {A : Type} (t ta tb : list A) (As Ae Bs Be S M E : nat) :
  (As <= Ae <= length t)%nat ->
  let t1 := take As t ++ ta ++ drop Ae t in
  (Bs <= Be <= length t1)%nat ->
  let applied := take Bs t1 ++ tb ++ drop Be t1 in
  S = Nat.min As Bs ->
  ((As + length ta <= Be /\ M = Bs + length tb /\
    E + (As + length ta) = Be + Ae) \/
   (Be <= As + length ta /\ M + Be = As + length ta + length tb + Bs /\
    E = Ae))%nat ->
  take S t ++ take (M - S) (drop S applied) ++ drop E t = applied.
Proof.
  intros Ha t1 Hb applied HS Hcase.
  assert (HlenA : length (take As t) = As) by (apply length_take_le; lia).
  assert (HlenB : length (take Bs t1) = Bs) by (apply length_take_le; lia).
  assert (Hprefix : take S applied = take S t).
  { unfold applied. rewrite take_app_le by lia.
    rewrite take_take, Nat.min_l by lia.
    unfold t1. rewrite take_app_le by lia.
    rewrite take_take. f_equal. lia. }
  assert (Hsuffix : drop M applied = drop E t).
  { unfold applied. rewrite (app_assoc (take Bs t1)).
    assert (Hhead : length (take Bs t1 ++ tb) = (Bs + length tb)%nat)
      by (rewrite length_app; lia).
    assert (Hhead1 : length (take As t ++ ta) = (As + length ta)%nat)
      by (rewrite length_app; lia).
    rewrite drop_app_ge by lia. rewrite Hhead, drop_drop.
    unfold t1. rewrite (app_assoc (take As t)).
    rewrite drop_app_ge by lia. rewrite Hhead1, drop_drop.
    f_equal. lia. }
  rewrite <- Hprefix, <- Hsuffix, app_assoc, take_take_drop.
  replace (S + (M - S))%nat with M by lia. apply take_drop.
Qed.

(** The diff that [mergeStringDiffs] hands to [normalizeStringDiff] fits the
    original text and has the effect of [a] followed by [b]. *)
Lemma mergeStringDiffs_raw (t : jsstring) (a b : StringDiff) :
  fits t a -> fits (DiffText.applyStringDiff t [a]) b ->
  let start0 := Z.min (start a) (start b) in
  let overlap := Z.max 0 (Z.min (start a + len (text a)) (end_ b) - start b) in
  let applied := DiffText.applyStringDiff t [a; b] in
  let sliceEnd :=
    Z.max (start b + len (text b))
      (start a + len (text a) +
       (if start b <? start a + len (text a) then len (text b) else 0) - overlap) in
  let d := {| start := start0;
              end_ := Z.max (end_ a) (end_ b - len (text a) + (end_ a - start a));
              text := str_slice applied start0 sliceEnd |} in
  fits t d /\ DiffText.applyStringDiff t [d] = applied.
Proof.
  intros (Ha0 & Ha1 & Ha2) (Hb0 & Hb1 & Hb2). cbv zeta.
  rewrite applyStringDiff_two.
  rewrite (applyStringDiff_one t a) in * by lia.
  set (t1 := take (Z.to_nat (start a)) t ++ text a ++ drop (Z.to_nat (end_ a)) t) in *.
  assert (Ht1 : len t1 = len t + len (text a) - (end_ a - start a)).
  { unfold t1, len in *.
    rewrite !length_app, length_take, length_drop. lia. }
  rewrite (applyStringDiff_one t1 b) by lia.
  set (applied := take (Z.to_nat (start b)) t1 ++ text b ++ drop (Z.to_nat (end_ b)) t1).
  pose proof (len_nonneg (text a)) as Hta. pose proof (len_nonneg (text b)) as Htb.
  split.
  { unfold fits. cbn [start end_ text]. lia. }
  rewrite applyStringDiff_one; cbn [start end_ text]; try lia.
  assert (Hfa : (Z.to_nat (start a) <= Z.to_nat (end_ a) <= length t)%nat)
    by (unfold len in *; lia).
  assert (Hfb : (Z.to_nat (start b) <= Z.to_nat (end_ b) <= length t1)%nat)
    by (unfold len in *; lia).
  unfold len in *.
  destruct (Z.ltb_spec (start b) (start a + Z.of_nat (length (text a))))
    as [Hlt | Hge];
    [destruct (Z.le_gt_cases (end_ b) (start a + Z.of_nat (length (text a))))
       as [Hin | Hover] |].
  - (* [b] ends within the text inserted by [a] *)
    rewrite (Z.max_l (end_ a)) by lia.
    rewrite (Z.min_r _ (end_ b)), (Z.max_r 0), (Z.max_r (start b + _)) by lia.
    rewrite str_slice_nonneg by lia.
    apply (merge_lists t (text a) (text b) _ _ _ _ _ _ _ Hfa Hfb); lia.
  - (* [b] starts within that text and reaches over its end *)
    rewrite (Z.max_r (end_ a)) by lia.
    rewrite (Z.min_l _ (end_ b)), (Z.max_r 0), (Z.max_l (start b + _)) by lia.
    rewrite str_slice_nonneg by lia.
    apply (merge_lists t (text a) (text b) _ _ _ _ _ _ _ Hfa Hfb); lia.
  - (* [b] lies after that text *)
    rewrite (Z.max_r (end_ a)) by lia.
    rewrite (Z.min_l _ (end_ b)), (Z.max_l 0), (Z.max_l (start b + _)) by lia.
    rewrite str_slice_nonneg by lia.
    apply (merge_lists t (text a) (text b) _ _ _ _ _ _ _ Hfa Hfb); lia.
Qed.

(** C1. For a diff [a] that fits [t] and a diff [b] that fits the text after
    [a]: a diff returned by [mergeStringDiffs(t, a, b)] has, applied to [t],
    the effect of [a] followed by [b]; and [null] is returned only when [a]
    followed by [b] gives [t] back. *)
Theorem mergeStringDiffs_correct (t : jsstring) (a b : StringDiff) :
  fits t a -> fits (DiffText.applyStringDiff t [a]) b ->
  (forall m, DiffText.mergeStringDiffs t a b = Some m ->
             DiffText.applyStringDiff t [m] = DiffText.applyStringDiff t [a; b]) /\
  (DiffText.mergeStringDiffs t a b = None ->
   DiffText.applyStringDiff t [a; b] = t).
Proof.
  intros Hfa Hfb.
  destruct (mergeStringDiffs_raw t a b Hfa Hfb) as [Hfit Heq].
  unfold DiffText.mergeStringDiffs.
  match type of Hfit with fits _ ?d0 => set (d := d0) in * end.
  pose proof (normalizeStringDiff_spec t d Hfit) as Hnorm.
  destruct (DiffText.normalizeStringDiff t d) as [n |]; split.
  - intros m [= <-]. now rewrite Hnorm.
  - discriminate.
  - discriminate.
  - intros _. now rewrite <- Heq.
Qed.

Lemma mergeStringDiffs_correct_witness :
  DiffText.applyStringDiff (js "abc") [mkStringDiff 1 1 (js "XY")]
  = DiffText.applyStringDiff (js "abc")
      [mkStringDiff 1 1 (js "X"); mkStringDiff 2 2 (js "Y")] /\
  DiffText.applyStringDiff (js "abc")
    [mkStringDiff 0 1 (js "b"); mkStringDiff 0 1 (js "a")] = js "abc".
Proof.
  split.
  - apply (proj1 (mergeStringDiffs_correct (js "abc")
               (mkStringDiff 1 1 (js "X")) (mkStringDiff 2 2 (js "Y"))
               ltac:(vm_compute; intuition discriminate)
               ltac:(vm_compute; intuition discriminate))).
    reflexivity.
  - apply (proj2 (mergeStringDiffs_correct (js "abc")
               (mkStringDiff 0 1 (js "b")) (mkStringDiff 0 1 (js "a"))
               ltac:(vm_compute; intuition discriminate)
               ltac:(vm_compute; intuition discriminate))).
    reflexivity.
Defined.

(** The fifth scenario of the specification: inserting ["X"] at 1 and then
    ["Y"] at 2 merges into one insertion of ["XY"] at 1, which turns ["abc"]
    into ["aXYbc"]. *)
Lemma mergeStringDiffs_abc :
  DiffText.mergeStringDiffs (js "abc") (mkStringDiff 1 1 (js "X"))
    (mkStringDiff 2 2 (js "Y")) = Some (mkStringDiff 1 1 (js "XY")) /\
  DiffText.applyStringDiff (js "abc") [mkStringDiff 1 1 (js "XY")] = js "aXYbc".
Proof. split; reflexivity. Qed.

(** * Further properties of the code *)

(** ** [equals], [common], [compare] and the ancestry tests of [path.ts] *)

Lemma every_eq_ints (p q : list Z) :
  length p = length q -> (every_eq (ints p) (ints q) = true <-> p = q).
Proof.
  revert q. induction p as [| x p IH]; intros q Hlen; destruct q as [| y q];
    try discriminate; [now split |].
  cbn [ints map every_eq hd tl strict_eq]. fold (ints p) (ints q).
  injection Hlen as Hlen. rewrite andb_true_iff, Z.eqb_eq, (IH q Hlen).
  split; [intros [-> ->]; reflexivity | intros [= -> ->]; now split].
Qed.

(** X1. On paths of integers [Path.equals] holds exactly of equal paths, in
    [path.ts] and in [unnamed/part_000]. *)
Theorem equals_iff (p q : list Z) :
  (PathTs.equals (ints p) (ints q) = true <-> p = q) /\
  (Part000.equals (ints p) (ints q) = true <-> p = q).
Proof.
  assert (H : PathTs.equals (ints p) (ints q) = true <-> p = q).
  { unfold PathTs.equals. rewrite andb_true_iff, Z.eqb_eq, !len_ints. split.
    - intros [Hlen Hevery]. apply every_eq_ints; [unfold len in Hlen; lia | assumption].
    - intros ->. split; [reflexivity | now apply every_eq_ints]. }
  split; exact H.
Qed.

(** X2. [Path.common] returns the longest prefix that two paths share, and
    [Path.commonDepth] is its length: the paths split into that prefix and two
    rests that start with different indices, unless one of them is empty. *)
Theorem common_is_longest_prefix (p q : list Z) :
  exists pre p' q',
    p = pre ++ p' /\ q = pre ++ q' /\
    PathTs.common (ints p) (ints q) = ints pre /\
    PathTs.commonDepth (ints p) (ints q) = len (PathTs.common (ints p) (ints q)) /\
    match p', q' with
    | x :: _, y :: _ => x <> y
    | _, _ => True
    end.
Proof.
  revert q. induction p as [| x p IH]; intros q.
  - exists [], [], q. now destruct q.
  - destruct q as [| y q].
    + exists [], (x :: p), []. now repeat split.
    + cbn [ints map PathTs.common PathTs.commonDepth strict_eq].
      fold (ints p) (ints q).
      destruct (Z.eqb_spec x y) as [-> | Hne]; cbn [negb].
      * destruct (IH q) as (pre & p' & q' & -> & -> & Hc & Hcd & Hd).
        exists (y :: pre), p', q'.
        rewrite Hcd, Hc, len_cons. now repeat split.
      * exists [], (x :: p), (y :: q). now repeat split.
Qed.

(** [compare] answers -1, 0 or 1 and changes sign when its arguments are
    exchanged, on arrays of any numbers. *)
Lemma compare_antisym (p q : Path) : PathTs.compare q p = - PathTs.compare p q.
Proof.
  revert q. induction p as [| a p IH]; intros q; destruct q as [| b q];
    try reflexivity.
  cbn [PathTs.compare].
  destruct a as [x | |], b as [y | |]; cbn [js_lt]; try apply IH.
  destruct (Z.ltb_spec x y), (Z.ltb_spec y x); try reflexivity; try lia.
  apply IH.
Qed.

Lemma compare_ints_app (pre p q : list Z) :
  PathTs.compare (ints (pre ++ p)) (ints (pre ++ q)) =
  PathTs.compare (ints p) (ints q).
Proof.
  induction pre as [| x pre IH]; [reflexivity |].
  cbn [app ints map PathTs.compare js_lt]. rewrite Z.ltb_irrefl. exact IH.
Qed.

(** X3. [Path.compare] is the lexicographic order on the common indices: after
    the longest common prefix it answers by the first pair of different
    indices, and 0 when one path is a prefix of the other; exchanging the
    arguments changes the sign. *)
Theorem compare_lexicographic (pre p' q' : list Z) :
  match p', q' with
  | x :: _, y :: _ => x <> y
  | _, _ => True
  end ->
  PathTs.compare (ints (pre ++ p')) (ints (pre ++ q')) =
    match p', q' with
    | x :: _, y :: _ => if x <? y then -1 else 1
    | _, _ => 0
    end /\
  PathTs.compare (ints (pre ++ q')) (ints (pre ++ p')) =
    - PathTs.compare (ints (pre ++ p')) (ints (pre ++ q')).
Proof.
  intros Hd. split; [| apply compare_antisym].
  rewrite compare_ints_app.
  destruct p' as [| x p'], q' as [| y q']; try reflexivity.
  cbn [ints map PathTs.compare js_lt].
  destruct (Z.ltb_spec x y); [reflexivity |].
  destruct (Z.ltb_spec y x); [reflexivity | lia].
Qed.

Lemma compare_lexicographic_witness :
  PathTs.compare (ints [0; 1; 5]) (ints [0; 2]) = -1 /\
  PathTs.compare (ints [0; 2]) (ints [0; 1; 5]) = 1 /\
  PathTs.compare (ints [0; 1]) (ints [0; 1; 5]) = 0.
Proof.
  split; [| split].
  - exact (proj1 (compare_lexicographic [0] [1; 5] [2] ltac:(simpl; lia))).
  - exact (proj2 (compare_lexicographic [0] [1; 5] [2] ltac:(simpl; lia))).
  - exact (proj1 (compare_lexicographic [0; 1] [] [5] I)).
Defined.

(** [compare] is 0 exactly when one path is a prefix of the other. *)
Lemma compare_zero_iff (p q : list Z) :
  PathTs.compare (ints p) (ints q) = 0 <->
  (exists r, q = p ++ r) \/ (exists r, p = q ++ r).
Proof.
  destruct (commonDepth_ints_split p q) as (pre & p' & q' & -> & -> & _ & Hd).
  rewrite compare_ints_app. split.
  - destruct p' as [| x p']; [left; exists q'; now rewrite app_nil_r |].
    destruct q' as [| y q']; [right; exists (x :: p'); now rewrite app_nil_r |].
    cbn [ints map PathTs.compare js_lt].
    destruct (Z.ltb_spec x y); [discriminate |].
    destruct (Z.ltb_spec y x); [discriminate | lia].
  - intros [[r Hr] | [r Hr]]; rewrite <- app_assoc in Hr;
      apply app_inv_head in Hr; subst.
    + destruct p' as [| x p']; [reflexivity |].
      cbn [app ints map PathTs.compare js_lt]. rewrite Z.ltb_irrefl.
      rewrite <- (app_nil_r p') at 1. fold (ints (p' ++ [])) (ints (p' ++ r)).
      rewrite compare_ints_app. now destruct r.
    + destruct q' as [| y q']; [now destruct r |].
      cbn [app ints map PathTs.compare js_lt]. rewrite Z.ltb_irrefl.
      rewrite <- (app_nil_r q') at 2. fold (ints (q' ++ r)) (ints (q' ++ [])).
      rewrite compare_ints_app. now destruct r.
Qed.

(** X4. The ancestry tests mirror each other on all arrays, and say on paths
    of integers what their names say: [isAncestor(p, q)] that [q] continues
    [p] by at least one index, [isParent(p, q)] by exactly one, [isCommon(p,
    q)] by any number. *)
Theorem ancestry_tests (p q : list Z) :
  (forall a b : Path, PathTs.isDescendant a b = PathTs.isAncestor b a) /\
  (forall a b : Path, PathTs.isChild a b = PathTs.isParent b a) /\
  (PathTs.isAncestor (ints p) (ints q) = true <-> StrictlyInside q p) /\
  (PathTs.isParent (ints p) (ints q) = true <-> exists c, q = p ++ [c]) /\
  (PathTs.isCommon (ints p) (ints q) = true <-> exists r, q = p ++ r).
Proof.
  assert (Hzero : forall a b : Path,
            (PathTs.compare a b =? 0) = (PathTs.compare b a =? 0)).
  { intros a b. rewrite (compare_antisym a b).
    destruct (Z.eqb_spec (PathTs.compare b a) 0), (Z.eqb_spec (- PathTs.compare b a) 0);
      try reflexivity; lia. }
  assert (Hcont : forall r : list Z,
            PathTs.compare (ints p) (ints (p ++ r)) = 0).
  { intros r. apply compare_zero_iff. left. now exists r. }
  assert (Hshort : len (ints p) <= len (ints q) ->
            PathTs.compare (ints p) (ints q) = 0 -> exists r, q = p ++ r).
  { rewrite !len_ints. intros Hlen [[r ->] | [r ->]]%compare_zero_iff; [now exists r |].
    rewrite len_app in Hlen. pose proof (len_nonneg r).
    assert (r = []) as -> by (apply len_zero_nil; lia).
    exists []. now rewrite !app_nil_r. }
  split; [| split; [| split; [| split]]].
  - intros a b. unfold PathTs.isDescendant, PathTs.isAncestor. now rewrite Hzero.
  - intros a b. unfold PathTs.isChild, PathTs.isParent. rewrite Hzero.
    f_equal. destruct (Z.eqb_spec (len a) (len b + 1)), (Z.eqb_spec (len b + 1) (len a));
      try reflexivity; lia.
  - unfold PathTs.isAncestor, StrictlyInside. rewrite andb_true_iff, Z.ltb_lt, Z.eqb_eq.
    split.
    + intros [Hlen Hc]. destruct (Hshort ltac:(lia) Hc) as [[| c r] ->].
      * rewrite app_nil_r in Hlen. lia.
      * now exists c, r.
    + intros (c & r & ->). split; [| apply Hcont].
      rewrite !len_ints, len_app, len_cons. pose proof (len_nonneg r). lia.
  - unfold PathTs.isParent. rewrite andb_true_iff, !Z.eqb_eq. split.
    + intros [Hlen Hc]. destruct (Hshort ltac:(lia) Hc) as [r ->].
      rewrite !len_ints, len_app in Hlen.
      destruct r as [| c [| c' r]];
        rewrite ?len_cons in Hlen; try (pose proof (len_nonneg r));
        change (len (@nil Z)) with 0 in *; try lia.
      now exists c.
    + intros [c ->]. split; [| apply Hcont].
      rewrite !len_ints, len_app, len_cons. reflexivity.
  - unfold PathTs.isCommon. rewrite andb_true_iff, Z.leb_le, Z.eqb_eq. split.
    + intros [Hlen Hc]. now apply Hshort.
    + intros [r ->]. split; [| apply Hcont].
      rewrite !len_ints, len_app. pose proof (len_nonneg r). lia.
Qed.

(** ** Array slices *)

Lemma arr_slice_nonneg {A : Type} (a : list A) (i j : Z) :
  0 <= i -> 0 <= j ->
  arr_slice a i j = take (Z.to_nat j - Z.to_nat i) (drop (Z.to_nat i) a).
Proof.
  intros Hi Hj. unfold arr_slice, len.
  destruct (Z.ltb_spec i 0); [lia |]. destruct (Z.ltb_spec j 0); [lia |].
  destruct (Z.le_gt_cases i (Z.of_nat (length a))) as [Hle | Hgt].
  - rewrite (Z.min_l i) by lia.
    destruct (Z.le_gt_cases j (Z.of_nat (length a))) as [Hjle | Hjgt].
    + rewrite Z.min_l by lia. f_equal. lia.
    + rewrite Z.min_r by lia.
      rewrite !take_ge; [reflexivity | |]; rewrite length_drop; lia.
  - rewrite (Z.min_r i) by lia. rewrite Nat2Z.id.
    rewrite !drop_ge by lia. now rewrite !take_nil.
Qed.

Lemma arr_slice_0 {A : Type} (a : list A) (j : Z) :
  0 <= j -> arr_slice a 0 j = take (Z.to_nat j) a.
Proof.
  intros Hj. rewrite arr_slice_nonneg by lia.
  change (Z.to_nat 0) with 0%nat. rewrite drop_0. f_equal. lia.
Qed.

Lemma arr_slice_from_nonneg {A : Type} (a : list A) (i : Z) :
  0 <= i -> arr_slice_from a i = drop (Z.to_nat i) a.
Proof.
  intros Hi. unfold arr_slice_from.
  rewrite arr_slice_nonneg by (try apply len_nonneg; lia).
  apply take_ge. rewrite length_drop. unfold len. lia.
Qed.

(** [a.slice(0, -1)] drops the last element. *)
Lemma arr_slice_init {A : Type} (a : list A) :
  arr_slice a 0 (-1) = take (length a - 1) a.
Proof.
  unfold arr_slice, len. cbn [Z.ltb Z.compare].
  rewrite Z.min_l by lia. change (Z.to_nat 0) with 0%nat. rewrite drop_0.
  f_equal. lia.
Qed.

Lemma arr_slice_init_app {A : Type} (a : list A) (x : A) :
  arr_slice (a ++ [x]) 0 (-1) = a.
Proof.
  rewrite arr_slice_init, length_app. cbn [length].
  replace (length a + 1 - 1)%nat with (length a) by lia.
  apply take_app_length.
Qed.

Lemma ints_take (n : nat) (p : list Z) : take n (ints p) = ints (take n p).
Proof. unfold ints. now rewrite <- fmap_take. Qed.

Lemma ints_drop (n : nat) (p : list Z) : drop n (ints p) = ints (drop n p).
Proof. unfold ints. now rewrite <- fmap_drop. Qed.

(** The last index of a path that is not the root. *)
Lemma last_index (p : list Z) :
  p <> [] -> exists pre i, p = pre ++ [i].
Proof.
  intros Hp. destruct (exists_last Hp) as (pre & i & ->). now exists pre, i.
Qed.

(** ** [next], [previous], [hasPrevious] and [parent] *)



(** X6. [Path.hasPrevious] holds of a path of integers exactly when
    [Path.previous] returns a path, that is, raises no exception. *)
Theorem hasPrevious_iff_previous (p : list Z) :
  PathTs.hasPrevious (ints p) = true <-> exists q, PathTs.previous (ints p) = Ok q.
Proof.
  destruct p as [| x p'] eqn:Hp.
  - split; [discriminate | intros [q Hq]; discriminate].
  - destruct (last_index (x :: p') ltac:(discriminate)) as (pre & i & Hsplit).
    rewrite Hsplit. unfold PathTs.hasPrevious.
    assert (Hlast : js_get (ints (pre ++ [i])) (len (ints (pre ++ [i])) - 1) = Int i).
    { rewrite ints_app, len_app. change (len (ints [i])) with 1.
      rewrite Z.add_simpl_r. apply (js_get_app_r _ (Int i) []). }
    rewrite Hlast. cbn [js_lt]. rewrite Z.ltb_lt.
    destruct (previous_path_ts pre i) as (_ & Hfirst & Hok). split.
    + intros Hi. rewrite (Hok Hi). eauto.
    + intros [q Hq]. destruct (Z.lt_ge_cases 0 i) as [Hlt | Hge]; [assumption |].
      rewrite Hfirst in Hq by lia. discriminate.
Qed.

(** X7. [Path.parent] raises on the root; for any other path it returns the
    path without its last index, which [isParent] accepts as the parent, and
    the next sibling has the same parent. *)
Theorem parent_drops_last (pre : list Z) (i : Z) :
  PathTs.parent [] = inl ParentOfRoot /\
  PathTs.parent (ints (pre ++ [i])) = inr (ints pre) /\
  PathTs.isParent (ints pre) (ints (pre ++ [i])) = true /\
  (do n <- PathTs.next (ints (pre ++ [i])); Ok (PathTs.parent n))
  = Ok (inr (ints pre)).
Proof.
  assert (Hparent : forall j, PathTs.parent (ints (pre ++ [j])) = inr (ints pre)).
  { intros j. unfold PathTs.parent. rewrite ints_app, len_app.
    change (ints [j]) with [Int j]. change (len [Int j]) with 1.
    pose proof (len_nonneg (ints pre)).
    destruct (Z.eqb_spec (len (ints pre) + 1) 0); [lia |].
    now rewrite arr_slice_init_app. }
  split; [reflexivity |]. split; [apply Hparent |]. split.
  - unfold PathTs.isParent. rewrite !len_ints, len_app. change (len [i]) with 1.
    rewrite Z.eqb_refl. cbn [andb]. apply Z.eqb_eq, compare_zero_iff.
    left. now exists [i].
  - rewrite next_path_ts. cbn [rbind]. now rewrite Hparent.
Qed.

(** ** [levels] and [ancestors] *)

Lemma levels_loop_prefixes (path : Path) (fuel i : nat) :
  PathTs.levels_loop path fuel (Z.of_nat i) =
  map (fun n => take n path) (seq i fuel).
Proof.
  revert i. induction fuel as [| fuel IH]; intros i; [reflexivity |].
  cbn [PathTs.levels_loop seq map]. rewrite arr_slice_0 by lia.
  rewrite Nat2Z.id. f_equal.
  replace (Z.of_nat i + 1) with (Z.of_nat (S i)) by lia. apply IH.
Qed.

Lemma seq_S_snoc (i n : nat) : seq i (S n) = seq i n ++ [(i + n)%nat].
Proof. now rewrite seq_S. Qed.

(** [ancestors] of [path.ts], with and without [reverse]. *)
Lemma levels_are_prefixes_aux (path : Path) :
  PathTs.ancestors path false = map (fun n => take n path) (seq 0 (length path)) /\
  PathTs.ancestors path true =
    rev (map (fun n => take n path) (seq 0 (length path))).
Proof.
  unfold PathTs.ancestors, PathTs.levels.
  rewrite (levels_loop_prefixes path _ 0), seq_S_snoc, map_app. split.
  - apply arr_slice_init_app.
  - rewrite rev_app_distr. now rewrite arr_slice_from_nonneg by lia.
Qed.

(** X8. [Path.levels] lists every prefix of the path, from the root to the
    path itself, and [Path.ancestors] the same list without the path; with
    [reverse] both lists are reversed. *)
Theorem levels_are_prefixes (path : Path) :
  PathTs.levels path false = map (fun n => take n path) (seq 0 (S (length path))) /\
  PathTs.levels path true = rev (PathTs.levels path false) /\
  PathTs.ancestors path false = map (fun n => take n path) (seq 0 (length path)) /\
  PathTs.ancestors path true = rev (PathTs.ancestors path false).
Proof.
  assert (Hl : PathTs.levels path false =
               map (fun n => take n path) (seq 0 (S (length path)))).
  { unfold PathTs.levels. apply (levels_loop_prefixes path _ 0). }
  destruct (levels_are_prefixes_aux path) as (Ha & Hr).
  split; [exact Hl |]. split; [reflexivity |]. split; [exact Ha |].
  now rewrite Hr, Ha.
Qed.

(** X9. [Path.ancestors] of [unnamed/part_000], which takes the levels of the
    parent, returns what [Path.ancestors] of [path.ts] returns, which drops
    the path from its levels; it never raises. *)
Theorem ancestors_agree (path : Path) (reverse : bool) :
  Part000.ancestors path reverse = inr (PathTs.ancestors path reverse).
Proof.
  destruct (levels_are_prefixes_aux path) as (Hf & Ht).
  unfold Part000.ancestors, Part000.parent.
  destruct (Z.eqb_spec (len path) 0) as [Hroot | Hne].
  { apply len_zero_nil in Hroot as ->. now destruct reverse. }
  assert (Hlen : (0 < length path)%nat) by (unfold len in Hne; lia).
  assert (Hlevels : PathTs.levels_loop (arr_slice path 0 (-1))
                      (S (length (arr_slice path 0 (-1)))) 0 =
                    map (fun n => take n path) (seq 0 (length path))).
  { rewrite (levels_loop_prefixes _ _ 0), arr_slice_init, length_take.
    replace (S (Nat.min (length path - 1) (length path))) with (length path) by lia.
    apply map_ext_in. intros n Hn%in_seq.
    rewrite take_take. f_equal. lia. }
  unfold Part000.levels. rewrite Hlevels.
  destruct reverse; [now rewrite Ht | now rewrite Hf].
Qed.

(** ** [relative] *)

Lemma equals_ints_iff (p q : list Z) :
  PathTs.equals (ints p) (ints q) = true <-> p = q.
Proof.
  unfold PathTs.equals. rewrite andb_true_iff, Z.eqb_eq, !len_ints. split.
  - intros [Hlen Hevery]. apply every_eq_ints; [unfold len in Hlen; lia | assumption].
  - intros ->. split; [reflexivity | now apply every_eq_ints].
Qed.

Lemma isCommon_ints_iff (p q : list Z) :
  PathTs.isCommon (ints p) (ints q) = true <-> exists r, q = p ++ r.
Proof.
  unfold PathTs.isCommon. rewrite andb_true_iff, Z.leb_le, Z.eqb_eq, !len_ints.
  split.
  - intros [Hlen [[r ->] | [r ->]]%compare_zero_iff]; [now exists r |].
    rewrite len_app in Hlen. pose proof (len_nonneg r).
    assert (r = []) as -> by (apply len_zero_nil; lia).
    exists []. now rewrite !app_nil_r.
  - intros [r ->]. rewrite len_app. pose proof (len_nonneg r).
    split; [lia |]. apply compare_zero_iff. left. now exists r.
Qed.

Lemma isAncestor_ints_iff (p q : list Z) :
  PathTs.isAncestor (ints p) (ints q) = true <-> StrictlyInside q p.
Proof.
  unfold PathTs.isAncestor, StrictlyInside.
  rewrite andb_true_iff, Z.ltb_lt, Z.eqb_eq, !len_ints. split.
  - intros [Hlen Hc].
    destruct (proj1 (isCommon_ints_iff p q)) as [[| c r] ->].
    + unfold PathTs.isCommon. rewrite !len_ints, Hc.
      apply andb_true_iff. split; [apply Z.leb_le; lia | reflexivity].
    + rewrite app_nil_r in Hlen. lia.
    + now exists c, r.
  - intros (c & r & ->). rewrite len_app, len_cons. pose proof (len_nonneg r).
    split; [lia |]. apply compare_zero_iff. left. now exists (c :: r).
Qed.

(** X10. [Path.relative(path, ancestor)] returns what follows [ancestor] in
    [path] when [ancestor] is a prefix of [path], so that [ancestor] followed
    by the result is [path]; it raises when [ancestor] is not a prefix. The
    test of [unnamed/part_000], by [isCommon], gives the same outcome. *)
Theorem relative_is_suffix (a r p : list Z) :
  PathTs.relative (ints (a ++ r)) (ints a) = inr (ints r) /\
  (~ (exists r', p = a ++ r') ->
   PathTs.relative (ints p) (ints a) = inl RelativeNotAbove) /\
  Part000.relative (ints p) (ints a) = PathTs.relative (ints p) (ints a).
Proof.
  assert (Htest : forall p0 : list Z,
            negb (PathTs.isAncestor (ints a) (ints p0)) &&
            negb (PathTs.equals (ints p0) (ints a)) = false <->
            exists r', p0 = a ++ r').
  { intros p0. rewrite andb_false_iff, !negb_false_iff,
      isAncestor_ints_iff, equals_ints_iff. split.
    - intros [(c & r' & ->) | ->]; [now exists (c :: r') |].
      exists []. now rewrite app_nil_r.
    - intros [[| c r'] ->]; [right; now rewrite app_nil_r | left; now exists c, r']. }
  split; [| split].
  - unfold PathTs.relative.
    rewrite (proj2 (Htest (a ++ r))) by (now exists r).
    rewrite arr_slice_from_nonneg by apply len_nonneg.
    rewrite ints_drop, len_ints. unfold len. rewrite Nat2Z.id.
    now rewrite drop_app_length.
  - intros Hno. unfold PathTs.relative.
    destruct (_ && _) eqn:Hb; [reflexivity |].
    exfalso. apply Hno. now apply Htest.
  - unfold Part000.relative, PathTs.relative.
    change (Part000.isCommon (ints a) (ints p))
      with (PathTs.isCommon (ints a) (ints p)).
    destruct (PathTs.isCommon (ints a) (ints p)) eqn:Hc.
    + apply isCommon_ints_iff in Hc. apply Htest in Hc. now rewrite Hc.
    + destruct (_ && _) eqn:Hb; [reflexivity |].
      apply Htest, isCommon_ints_iff in Hb. congruence.
Qed.

Lemma relative_is_suffix_witness :
  PathTs.relative (ints [0; 2]) (ints [1]) = inl RelativeNotAbove.
Proof.
  apply (proj1 (proj2 (relative_is_suffix [1] [] [0; 2]))).
  intros [r' H]. discriminate H.
Defined.

(** ** [endsBefore], [endsAt], [endsAfter] and [isSibling] in the two files *)

Lemma strict_eq_sym (a b : jsnum) : strict_eq a b = strict_eq b a.
Proof. destruct a, b; try reflexivity. apply Z.eqb_sym. Qed.

Lemma commonDepth_sym (p q : Path) :
  PathTs.commonDepth p q = PathTs.commonDepth q p.
Proof.
  revert q. induction p as [| a p IH]; intros q; destruct q as [| b q];
    try reflexivity.
  cbn [PathTs.commonDepth]. now rewrite strict_eq_sym, IH.
Qed.

Lemma js_get_ints (q : list Z) (n : nat) :
  js_get (ints q) (Z.of_nat n) =
  match q !! n with Some y => Int y | None => Undef end.
Proof.
  unfold js_get. destruct (Z.ltb_spec (Z.of_nat n) 0) as [Hneg | _]; [lia |].
  rewrite Nat2Z.id. revert n. induction q as [| x q IH]; intros [| n];
    try reflexivity.
  cbn [ints map nth]. apply IH.
Qed.

(** The index that follows a prefix. *)
Lemma continues_at (pre q : list Z) (y : Z) :
  take (length pre) q = pre /\ q !! length pre = Some y <->
  exists rest, q = pre ++ y :: rest.
Proof.
  split.
  - intros [Htake Hy]. exists (drop (S (length pre)) q).
    rewrite <- Htake at 1. symmetry. now apply take_drop_middle.
  - intros [rest ->]. split; [apply take_app_length |].
    now rewrite lookup_app_r, Nat.sub_diag by lia.
Qed.

(** The two slices that [endsBefore] and [endsAfter] of [path.ts] compare,
    and the two indices. *)
Lemma ends_parts (pre : list Z) (x : Z) (q : list Z) :
  let i := len (ints (pre ++ [x])) - 1 in
  (PathTs.equals (arr_slice (ints (pre ++ [x])) 0 i) (arr_slice (ints q) 0 i) = true
   <-> take (length pre) q = pre) /\
  js_get (ints (pre ++ [x])) i = Int x /\
  js_get (ints q) i = match q !! length pre with Some y => Int y | None => Undef end.
Proof.
  cbv zeta.
  assert (Hi : len (ints (pre ++ [x])) - 1 = Z.of_nat (length pre)).
  { rewrite len_ints. unfold len. rewrite length_app. cbn [length]. lia. }
  rewrite Hi. split; [| split].
  - rewrite !arr_slice_0, Nat2Z.id, !ints_take, take_app_length by lia.
    rewrite equals_ints_iff. split; congruence.
  - rewrite js_get_ints, lookup_app_r, Nat.sub_diag by lia. reflexivity.
  - apply js_get_ints.
Qed.

Lemma endsBefore_ints_iff (p q : list Z) :
  PathTs.endsBefore (ints p) (ints q) = true <-> EndsBefore p q.
Proof.
  unfold PathTs.endsBefore, EndsBefore.
  destruct p as [| x0 p0] eqn:Hp.
  - split; [| intros (pre & i & j & rest & H & _); now destruct pre].
    intros [_ H]%andb_true_iff. discriminate H.
  - destruct (last_index (x0 :: p0) ltac:(discriminate)) as (pre & x & ->).
    destruct (ends_parts pre x q) as (Heq & Hav & Hbv).
    rewrite andb_true_iff, Heq, Hav, Hbv. split.
    + intros [Htake Hlt]. destruct (q !! length pre) as [y |] eqn:Hy;
        [| discriminate]. cbn [js_lt] in Hlt. apply Z.ltb_lt in Hlt.
      destruct (proj1 (continues_at pre q y) (conj Htake Hy)) as [rest ->].
      now exists pre, x, y, rest.
    + intros (pre' & i & j & rest & Hsplit & -> & Hlt).
      apply app_inj_tail in Hsplit as [<- <-].
      destruct (proj2 (continues_at pre (pre ++ j :: rest) j)) as [Htake Hy];
        [now exists rest |].
      rewrite Hy. cbn [js_lt]. split; [assumption | now apply Z.ltb_lt].
Qed.

Lemma endsAfter_ints_iff (p q : list Z) :
  PathTs.endsAfter (ints p) (ints q) = true <->
  exists pre x y rest, p = pre ++ [x] /\ q = pre ++ y :: rest /\ y < x.
Proof.
  unfold PathTs.endsAfter.
  destruct p as [| x0 p0] eqn:Hp.
  - split; [| intros (pre & i & j & rest & H & _); now destruct pre].
    intros [_ H]%andb_true_iff. compute in H. discriminate H.
  - destruct (last_index (x0 :: p0) ltac:(discriminate)) as (pre & x & ->).
    destruct (ends_parts pre x q) as (Heq & Hav & Hbv).
    rewrite andb_true_iff, Heq, Hav, Hbv. split.
    + intros [Htake Hlt]. destruct (q !! length pre) as [y |] eqn:Hy;
        [| discriminate]. cbn [js_lt] in Hlt. apply Z.ltb_lt in Hlt.
      destruct (proj1 (continues_at pre q y) (conj Htake Hy)) as [rest ->].
      now exists pre, x, y, rest.
    + intros (pre' & i & j & rest & Hsplit & -> & Hlt).
      apply app_inj_tail in Hsplit as [<- <-].
      destruct (proj2 (continues_at pre (pre ++ j :: rest) j)) as [Htake Hy];
        [now exists rest |].
      rewrite Hy. cbn [js_lt]. split; [assumption | now apply Z.ltb_lt].
Qed.

Lemma endsAt_ints_iff (p q : list Z) :
  PathTs.endsAt (ints p) (ints q) = true <-> exists r, q = p ++ r.
Proof.
  unfold PathTs.endsAt.
  rewrite !arr_slice_0 by apply len_nonneg.
  rewrite len_ints. unfold len. rewrite Nat2Z.id, !ints_take, firstn_all.
  rewrite equals_ints_iff. split.
  - intros Hp. exists (drop (length p) q). rewrite Hp at 1. now rewrite take_drop.
  - intros [r ->]. now rewrite take_app_length.
Qed.

Lemma isSibling_ints_iff (p q : list Z) :
  PathTs.isSibling (ints p) (ints q) = true <->
  exists pre x y, p = pre ++ [x] /\ q = pre ++ [y] /\ x <> y.
Proof.
  unfold PathTs.isSibling. rewrite !len_ints.
  destruct (Z.eqb_spec (len p) (len q)) as [Hlen | Hlen]; cbn [negb].
  - destruct p as [| x0 p0] eqn:Hp.
    + assert (q = []) as -> by (apply len_zero_nil; now rewrite <- Hlen).
      split; [discriminate | intros (pre & x & y & H & _); now destruct pre].
    + destruct (last_index (x0 :: p0) ltac:(discriminate)) as (pre & x & Hsplit).
      rewrite Hsplit in *. clear Hp Hsplit x0 p0.
      destruct q as [| y0 q0].
      { rewrite len_app in Hlen. pose proof (len_nonneg pre).
        change (len [x]) with 1 in Hlen. change (len (@nil Z)) with 0 in Hlen. lia. }
      destruct (last_index (y0 :: q0) ltac:(discriminate)) as (pre' & y & ->).
      rewrite !ints_app. change (ints [x]) with [Int x]. change (ints [y]) with [Int y].
      rewrite !arr_slice_init_app, !len_app. change (len [Int x]) with 1.
      change (len [x]) with 1. change (len [y]) with 1.
      rewrite !Z.add_simpl_r, <- !(len_ints pre), <- (len_ints pre').
      rewrite !js_get_app_r. cbn [strict_eq].
      rewrite andb_true_iff, negb_true_iff, Z.eqb_neq, equals_ints_iff. split.
      * intros [Hne ->]. now exists pre', x, y.
      * intros (c & x' & y' & [<- <-]%app_inj_tail & [<- <-]%app_inj_tail & Hne).
        now split.
  - split; [discriminate |]. intros (pre & x & y & -> & -> & _).
    rewrite !len_app in Hlen. now change (len [x]) with (len [y]) in Hlen.
Qed.

(** X11. What the four sibling tests of [path.ts] say on paths of integers:
    [endsBefore(p, q)] and [endsAfter(p, q)] that [q] leaves the parent of [p]
    through a later, respectively earlier, sibling of [p]; [endsAt(p, q)] that
    [q] is [p] or below it; [isSibling(p, q)] that the two paths differ in
    their last index only. *)
Theorem sibling_tests (p q : list Z) :
  (PathTs.endsBefore (ints p) (ints q) = true <->
   exists pre x y rest, p = pre ++ [x] /\ q = pre ++ y :: rest /\ x < y) /\
  (PathTs.endsAfter (ints p) (ints q) = true <->
   exists pre x y rest, p = pre ++ [x] /\ q = pre ++ y :: rest /\ y < x) /\
  (PathTs.endsAt (ints p) (ints q) = true <-> exists r, q = p ++ r) /\
  (PathTs.isSibling (ints p) (ints q) = true <->
   exists pre x y, p = pre ++ [x] /\ q = pre ++ [y] /\ x <> y).
Proof.
  split; [apply endsBefore_ints_iff |]. split; [apply endsAfter_ints_iff |].
  split; [apply endsAt_ints_iff | apply isSibling_ints_iff].
Qed.

Lemma part000_endsBefore_iff (p q : list Z) :
  Part000.endsBefore (ints p) (ints q) = true <-> EndsBefore p q.
Proof.
  rewrite <- (opEndsBeforePath_iff q p). unfold Part000.endsBefore.
  change Part000.commonDepth with PathTs.commonDepth.
  rewrite (commonDepth_sym (ints p) (ints q)).
  destruct (Z.eqb_spec (PathTs.commonDepth (ints q) (ints p)) (len (ints p) - 1))
    as [-> | _]; reflexivity.
Qed.

Lemma part000_endsAfter_iff (p q : list Z) :
  Part000.endsAfter (ints p) (ints q) = true <->
  exists pre x y rest, p = pre ++ [x] /\ q = pre ++ y :: rest /\ y < x.
Proof.
  unfold Part000.endsAfter. change Part000.commonDepth with PathTs.commonDepth.
  rewrite andb_true_iff, Z.eqb_eq, len_ints. split.
  - intros [Hcd Hlt].
    destruct (commonDepth_ints_split p q) as (c & p' & q' & -> & -> & Hc & _).
    rewrite Hc, len_app in Hcd.
    destruct p' as [| x p']; [change (len (@nil Z)) with 0 in Hcd; lia |].
    rewrite len_cons in Hcd. pose proof (len_nonneg p').
    assert (p' = []) as -> by (apply len_zero_nil; lia).
    rewrite len_app in Hlt. change (len [x]) with 1 in Hlt.
    rewrite Z.add_simpl_r, <- (len_ints c), !ints_app in Hlt.
    change (ints [x]) with [Int x] in Hlt. rewrite js_get_app_r in Hlt.
    destruct q' as [| y rest].
    + rewrite app_nil_r in Hlt. unfold js_get in Hlt.
      destruct (len (ints c) <? 0); [discriminate |].
      rewrite nth_overflow in Hlt by (unfold len; lia). discriminate.
    + cbn [ints map] in Hlt. rewrite js_get_app_r in Hlt.
      cbn [js_lt] in Hlt. apply Z.ltb_lt in Hlt. now exists c, x, y, rest.
  - intros (c & x & y & rest & -> & -> & Hlt).
    assert (Hlen : len (c ++ [x]) - 1 = len c).
    { rewrite len_app. change (len [x]) with 1. lia. }
    rewrite Hlen, commonDepth_ints_app. cbn [ints map PathTs.commonDepth strict_eq].
    destruct (Z.eqb_spec x y); [lia |]. split; [lia |].
    rewrite <- (len_ints c), !ints_app. cbn [ints map].
    rewrite !js_get_app_r. cbn [js_lt]. now apply Z.ltb_lt.
Qed.

Lemma part000_isSibling_iff (p q : list Z) :
  Part000.isSibling (ints p) (ints q) = true <->
  exists pre x y, p = pre ++ [x] /\ q = pre ++ [y] /\ x <> y.
Proof.
  unfold Part000.isSibling. change Part000.commonDepth with PathTs.commonDepth.
  rewrite andb_true_iff, !Z.eqb_eq, !len_ints. split.
  - intros [Hlen Hcd].
    destruct (commonDepth_ints_split p q) as (c & p' & q' & -> & -> & Hc & Hd).
    rewrite Hc, !len_app in *.
    destruct p' as [| x p']; [change (len (@nil Z)) with 0 in Hcd; lia |].
    destruct q' as [| y q']; [change (len (@nil Z)) with 0 in Hlen;
                              rewrite len_cons in Hlen;
                              pose proof (len_nonneg p'); lia |].
    rewrite !len_cons in *. pose proof (len_nonneg p'). pose proof (len_nonneg q').
    assert (p' = []) as -> by (apply len_zero_nil; lia).
    assert (q' = []) as -> by (apply len_zero_nil;
                               change (len (@nil Z)) with 0 in Hlen; lia).
    now exists c, x, y.
  - intros (c & x & y & -> & -> & Hne).
    rewrite commonDepth_ints_app, !len_app. change (len [x]) with 1.
    change (len [y]) with 1. cbn [ints map PathTs.commonDepth strict_eq].
    destruct (Z.eqb_spec x y); [contradiction | lia].
Qed.

(** X12. On paths of integers the sibling tests of [unnamed/part_000], which
    are written with [commonDepth], answer as those of [path.ts], which
    compare slices. *)
Theorem sibling_tests_agree (p q : list Z) :
  Part000.endsBefore (ints p) (ints q) = PathTs.endsBefore (ints p) (ints q) /\
  Part000.endsAfter (ints p) (ints q) = PathTs.endsAfter (ints p) (ints q) /\
  Part000.endsAt (ints p) (ints q) = PathTs.endsAt (ints p) (ints q) /\
  Part000.isSibling (ints p) (ints q) = PathTs.isSibling (ints p) (ints q).
Proof.
  split; [| split; [| split]]; apply eq_true_iff_eq.
  - now rewrite part000_endsBefore_iff, endsBefore_ints_iff.
  - now rewrite part000_endsAfter_iff, endsAfter_ints_iff.
  - rewrite endsAt_ints_iff. unfold Part000.endsAt.
    change Part000.commonDepth with PathTs.commonDepth.
    rewrite Z.eqb_eq, len_ints. apply commonDepth_eq_len_l.
  - now rewrite part000_isSibling_iff, isSibling_ints_iff.
Qed.

(** ** [Path.transform] of [path.ts], case by case *)

(** The tests of [transform] on paths of integers. *)
Lemma ends_iff (p op : list Z) :
  opEndsBeforePath (ints p) (ints op) = true <-> EndsBefore op p.
Proof. apply opEndsBeforePath_iff. Qed.

Lemma above_iff (p op : list Z) :
  (PathTs.commonDepth (ints p) (ints op) =? len (ints op)) = true <->
  exists rest, p = op ++ rest.
Proof. rewrite Z.eqb_eq, len_ints. apply commonDepth_eq_len_r. Qed.

Lemma equal_iff (p op : list Z) :
  (len (ints p) <? len (ints op)) = false ->
  ((PathTs.commonDepth (ints p) (ints op) =? len (ints p)) = true <-> p = op).
Proof.
  rewrite Z.ltb_ge, Z.eqb_eq, !len_ints. intros Hlen. split.
  - intros [rest ->]%commonDepth_eq_len_l.
    rewrite len_app in Hlen. pose proof (len_nonneg rest).
    assert (rest = []) as -> by (apply len_zero_nil; lia).
    now rewrite app_nil_r.
  - intros ->. apply commonDepth_eq_len_l. exists []. now rewrite app_nil_r.
Qed.

Lemma above_not_before (op rest : list Z) : ~ EndsBefore op (op ++ rest).
Proof.
  intros H. pose proof (proj2 (ends_iff (op ++ rest) op) H) as Hb.
  unfold opEndsBeforePath in Hb. cbv zeta in Hb. bool_hyps.
  assert (Hcd : PathTs.commonDepth (ints (op ++ rest)) (ints op) = len op)
    by (apply commonDepth_eq_len_r; now exists rest).
  rewrite len_ints in *. lia.
Qed.

Lemma not_deeper (p op : list Z) :
  (exists rest, p = op ++ rest) \/ EndsBefore op p ->
  (len (ints p) <? len (ints op)) = false.
Proof.
  rewrite Z.ltb_ge, !len_ints. intros [[rest ->] | H%EndsBefore_length]; [| lia].
  rewrite len_app. pose proof (len_nonneg rest). lia.
Qed.

(** The three structural cases of [transform], reduced to their tests. *)
Lemma transform_insert_node_unfold (p op : Path) (options : option Affinity) :
  PathTs.transform p (insert_node op) options =
  if len p <? len op then Some p
  else if (PathTs.commonDepth p op =? len op) || opEndsBeforePath p op
  then Some (js_add_at p (len op - 1) 1)
  else Some p.
Proof.
  unfold PathTs.transform, opEndsBeforePath.
  cbn [op_path is_move_node negb orb]. cbv zeta. rewrite andb_true_r.
  destruct (len p <? len op); [reflexivity |]. cbn [andb].
  set (ends := (PathTs.commonDepth p op =? len op - 1) && _).
  destruct (PathTs.commonDepth p op =? len op), ends; reflexivity.
Qed.

Lemma transform_remove_node_unfold (p op : Path) (options : option Affinity) :
  PathTs.transform p (remove_node op) options =
  if len p <? len op then Some p
  else if PathTs.commonDepth p op =? len op then None
  else if opEndsBeforePath p op then Some (js_sub_at p (len op - 1) 1)
  else Some p.
Proof.
  unfold PathTs.transform, opEndsBeforePath.
  cbn [op_path is_move_node negb orb]. cbv zeta. rewrite andb_true_r.
  destruct (len p <? len op); [reflexivity |]. cbn [andb].
  set (ends := (PathTs.commonDepth p op =? len op - 1) && _).
  destruct (PathTs.commonDepth p op =? len op), ends; reflexivity.
Qed.

Lemma transform_split_node_unfold (p op : Path) (position : Z)
    (options : option Affinity) :
  PathTs.transform p (split_node op position) options =
  if len p <? len op then Some p
  else if PathTs.commonDepth p op =? len p then
    match affinity_of options with
    | forward => Some (js_add_at p (len op - 1) 1)
    | backward => Some p
    | null => None
    end
  else if opEndsBeforePath p op then Some (js_add_at p (len op - 1) 1)
  else if (PathTs.commonDepth p op =? len op) &&
          js_ge (js_get p (PathTs.commonDepth p op)) (Int position)
  then Some (js_sub_at (js_add_at p (len op - 1) 1) (len op) position)
  else Some p.
Proof.
  unfold PathTs.transform, opEndsBeforePath.
  cbn [op_path is_move_node negb orb]. cbv zeta. rewrite andb_true_r.
  pose proof (commonDepth_bounds p op) as (_ & Hcp & Hco).
  destruct (Z.ltb_spec (len p) (len op)); [reflexivity |]. cbn [andb].
  destruct (Z.eqb_spec (PathTs.commonDepth p op) (len op));
    destruct (Z.eqb_spec (PathTs.commonDepth p op) (len p));
    destruct ((PathTs.commonDepth p op =? len op - 1) && _);
    cbn [negb andb]; try reflexivity; lia.
Qed.


(** A path that an operation at [op] does not concern passes all four
    tests by. *)
Lemma unaffected_tests (p op : list Z) :
  ~ (exists rest, p = op ++ rest) -> ~ EndsBefore op p ->
  (len (ints p) <? len (ints op)) = true \/
  ((len (ints p) <? len (ints op)) = false /\
   (PathTs.commonDepth (ints p) (ints op) =? len (ints op)) = false /\
   (PathTs.commonDepth (ints p) (ints op) =? len (ints p)) = false /\
   opEndsBeforePath (ints p) (ints op) = false).
Proof.
  intros Hna Hnb.
  destruct (len (ints p) <? len (ints op)) eqn:Hlen; [now left | right].
  split; [reflexivity |].
  assert (Ha : (PathTs.commonDepth (ints p) (ints op) =? len (ints op)) = false).
  { apply not_true_is_false. intros H%above_iff. contradiction. }
  split; [exact Ha |]. split.
  - apply not_true_is_false. intros H%(equal_iff p op Hlen). subst.
    apply Hna. exists []. now rewrite app_nil_r.
  - apply not_true_is_false. intros H%ends_iff. contradiction.
Qed.

(** A path at or below [op]. *)
Lemma above_tests (op rest : list Z) :
  (len (ints (op ++ rest)) <? len (ints op)) = false /\
  (PathTs.commonDepth (ints (op ++ rest)) (ints op) =? len (ints op)) = true /\
  opEndsBeforePath (ints (op ++ rest)) (ints op) = false /\
  PathTs.commonDepth (ints (op ++ rest)) (ints op) = len (ints op).
Proof.
  assert (Ha : exists r, op ++ rest = op ++ r) by (now exists rest).
  split; [apply not_deeper; now left |]. split; [now apply above_iff |]. split.
  - apply not_true_is_false. intros H%ends_iff. now apply above_not_before in H.
  - apply Z.eqb_eq. now apply above_iff.
Qed.

(** A path that [op] ends before. *)
Lemma before_tests (p op : list Z) :
  EndsBefore op p ->
  (len (ints p) <? len (ints op)) = false /\
  (PathTs.commonDepth (ints p) (ints op) =? len (ints op)) = false /\
  (PathTs.commonDepth (ints p) (ints op) =? len (ints p)) = false /\
  opEndsBeforePath (ints p) (ints op) = true.
Proof.
  intros Hb.
  assert (Hlen : (len (ints p) <? len (ints op)) = false)
    by (apply not_deeper; now right).
  split; [exact Hlen |]. split; [| split].
  - apply not_true_is_false. intros [rest ->]%above_iff.
    now apply above_not_before in Hb.
  - apply not_true_is_false. intros ->%(equal_iff p op Hlen).
    apply (above_not_before op []). now rewrite app_nil_r.
  - now apply ends_iff.
Qed.

Lemma len_op_lt (p op : list Z) :
  (len (ints p) <? len (ints op)) = false -> len op - 1 < len p.
Proof. rewrite Z.ltb_ge, !len_ints. lia. Qed.



(** [insert_node] *)
Lemma insert_node_shifted (p op : list Z) (options : option Affinity) :
  (exists rest, p = op ++ rest) \/ EndsBefore op p ->
  PathTs.transform (ints p) (insert_node (ints op)) options =
  Some (ints (adjust (len op - 1) 1 p)).
Proof.
  intros H. rewrite transform_insert_node_unfold.
  pose proof (not_deeper p op H) as Hlen. rewrite Hlen.
  assert (Htest : (PathTs.commonDepth (ints p) (ints op) =? len (ints op))
                  || opEndsBeforePath (ints p) (ints op) = true).
  { apply orb_true_iff. destruct H as [H | H];
      [left; now apply above_iff | right; now apply ends_iff]. }
  rewrite Htest, len_ints, js_add_at_adjust by now apply len_op_lt.
  reflexivity.
Qed.

Lemma insert_node_unaffected (p op : list Z) (options : option Affinity) :
  ~ (exists rest, p = op ++ rest) -> ~ EndsBefore op p ->
  PathTs.transform (ints p) (insert_node (ints op)) options = Some (ints p).
Proof.
  intros Ha Hb. rewrite transform_insert_node_unfold.
  destruct (unaffected_tests p op Ha Hb) as [-> | (-> & -> & _ & ->)]; reflexivity.
Qed.

(** [remove_node] *)
Lemma remove_node_destroyed (op rest : list Z) (options : option Affinity) :
  PathTs.transform (ints (op ++ rest)) (remove_node (ints op)) options = None.
Proof.
  rewrite transform_remove_node_unfold.
  destruct (above_tests op rest) as (-> & -> & _). reflexivity.
Qed.

Lemma remove_node_shifted (p op : list Z) (options : option Affinity) :
  EndsBefore op p ->
  PathTs.transform (ints p) (remove_node (ints op)) options =
  Some (ints (adjust (len op - 1) (-1) p)).
Proof.
  intros H. rewrite transform_remove_node_unfold.
  destruct (before_tests p op H) as (Hlen & -> & _ & ->). rewrite Hlen.
  rewrite len_ints, js_sub_at_adjust by now apply len_op_lt. reflexivity.
Qed.

Lemma remove_node_unaffected (p op : list Z) (options : option Affinity) :
  ~ (exists rest, p = op ++ rest) -> ~ EndsBefore op p ->
  PathTs.transform (ints p) (remove_node (ints op)) options = Some (ints p).
Proof.
  intros Ha Hb. rewrite transform_remove_node_unfold.
  destruct (unaffected_tests p op Ha Hb) as [-> | (-> & -> & _ & ->)]; reflexivity.
Qed.

(** [split_node] *)
Lemma split_node_self (op : list Z) (position : Z) (options : option Affinity) :
  PathTs.transform (ints op) (split_node (ints op) position) options =
  match affinity_of options with
  | forward => Some (ints (adjust (len op - 1) 1 op))
  | backward => Some (ints op)
  | null => None
  end.
Proof.
  rewrite transform_split_node_unfold.
  rewrite Z.ltb_irrefl.
  rewrite (proj2 (equal_iff op op (Z.ltb_irrefl _)) eq_refl).
  destruct (affinity_of options); try reflexivity.
  rewrite len_ints, js_add_at_adjust by lia. reflexivity.
Qed.

Lemma split_node_inside (op : list Z) (c : Z) (rest : list Z) (position : Z)
    (options : option Affinity) :
  PathTs.transform (ints (op ++ c :: rest)) (split_node (ints op) position) options =
  if position <=? c
  then Some (ints (adjust (len op) (- position)
                     (adjust (len op - 1) 1 (op ++ c :: rest))))
  else Some (ints (op ++ c :: rest)).
Proof.
  rewrite transform_split_node_unfold.
  destruct (above_tests op (c :: rest)) as (Hlen & Ha & Hb & Hcd).
  rewrite Hlen, Ha, Hb, Hcd.
  assert (Hne : (len (ints op) =? len (ints (op ++ c :: rest))) = false).
  { apply Z.eqb_neq. rewrite !len_ints, len_app, len_cons.
    pose proof (len_nonneg rest). lia. }
  rewrite Hne. cbn [andb].
  rewrite ints_app at 1. cbn [ints map]. rewrite js_get_app_r. cbn [js_ge].
  destruct (position <=? c); [| reflexivity].
  assert (Hl : len (op ++ c :: rest) = len op + 1 + len rest)
    by (rewrite len_app, len_cons; lia).
  pose proof (len_nonneg rest). rewrite len_ints.
  rewrite js_add_at_adjust by lia.
  rewrite js_sub_at_adjust by (rewrite adjust_length; lia). reflexivity.
Qed.

Lemma split_node_later (p op : list Z) (position : Z) (options : option Affinity) :
  EndsBefore op p ->
  PathTs.transform (ints p) (split_node (ints op) position) options =
  Some (ints (adjust (len op - 1) 1 p)).
Proof.
  intros H. rewrite transform_split_node_unfold.
  destruct (before_tests p op H) as (Hlen & _ & -> & ->). rewrite Hlen.
  rewrite len_ints, js_add_at_adjust by now apply len_op_lt. reflexivity.
Qed.

Lemma split_node_unaffected (p op : list Z) (position : Z)
    (options : option Affinity) :
  ~ (exists rest, p = op ++ rest) -> ~ EndsBefore op p ->
  PathTs.transform (ints p) (split_node (ints op) position) options = Some (ints p).
Proof.
  intros Ha Hb. rewrite transform_split_node_unfold.
  destruct (unaffected_tests p op Ha Hb) as [-> | (-> & -> & -> & ->)]; reflexivity.
Qed.




(** X13. [Path.transform] through an insert_node at [op]: a path at or below
    [op], or that [op] ends before, has its index at depth [op.length - 1]
    incremented; any other path is returned unchanged. The path is never
    destroyed. *)
Theorem transform_insert_node (p op : list Z) (options : option Affinity) :
  ((exists rest, p = op ++ rest) \/ EndsBefore op p ->
   PathTs.transform (ints p) (insert_node (ints op)) options =
   Some (ints (adjust (len op - 1) 1 p))) /\
  (~ (exists rest, p = op ++ rest) -> ~ EndsBefore op p ->
   PathTs.transform (ints p) (insert_node (ints op)) options = Some (ints p)).
Proof.
  split; [apply insert_node_shifted | apply insert_node_unaffected].
Qed.

Lemma transform_insert_node_witness :
  PathTs.transform (ints [0; 1]) (insert_node (ints [0; 0])) None
    = Some (ints [0; 2]) /\
  PathTs.transform (ints [0; 1]) (insert_node (ints [0; 2])) None
    = Some (ints [0; 1]).
Proof.
  split.
  - apply (proj1 (transform_insert_node [0; 1] [0; 0] None)).
    right. exists [0], 0, 1, []. split; [| split]; [reflexivity .. | lia].
  - apply (proj2 (transform_insert_node [0; 1] [0; 2] None)).
    + intros [rest H]. discriminate H.
    + intros H%ends_iff. discriminate H.
Defined.

(** X14. [Path.transform] through a remove_node at [op]: a path at or below
    [op] is destroyed ([null]); a path that [op] ends before has its index at
    depth [op.length - 1] decremented; any other path is returned unchanged. *)
Theorem transform_remove_node (p op : list Z) (options : option Affinity) :
  ((exists rest, p = op ++ rest) ->
   PathTs.transform (ints p) (remove_node (ints op)) options = None) /\
  (EndsBefore op p ->
   PathTs.transform (ints p) (remove_node (ints op)) options =
   Some (ints (adjust (len op - 1) (-1) p))) /\
  (~ (exists rest, p = op ++ rest) -> ~ EndsBefore op p ->
   PathTs.transform (ints p) (remove_node (ints op)) options = Some (ints p)).
Proof.
  split; [| split].
  - intros [rest ->]. apply remove_node_destroyed.
  - apply remove_node_shifted.
  - apply remove_node_unaffected.
Qed.

Lemma transform_remove_node_witness :
  PathTs.transform (ints [0; 1]) (remove_node (ints [0; 1])) None = None /\
  PathTs.transform (ints [0; 3; 2]) (remove_node (ints [0; 1])) None
    = Some (ints [0; 2; 2]) /\
  PathTs.transform (ints [0; 1]) (remove_node (ints [0; 2])) None
    = Some (ints [0; 1]).
Proof.
  split; [| split].
  - apply (proj1 (transform_remove_node [0; 1] [0; 1] None)). now exists [].
  - apply (proj1 (proj2 (transform_remove_node [0; 3; 2] [0; 1] None))).
    exists [0], 1, 3, [2]. split; [| split]; [reflexivity .. | lia].
  - apply (proj2 (proj2 (transform_remove_node [0; 1] [0; 2] None))).
    + intros [rest H]. discriminate H.
    + intros H%ends_iff. discriminate H.
Defined.

(** X15. [Path.transform] through a split_node at [op] with [position]: the
    path [op] itself moves to the next sibling with affinity forward, stays
    with affinity backward and is rejected ([null]) with affinity [null]; a
    path below [op] whose index under [op] is at least [position] moves to
    the next sibling of [op] with that index decreased by [position], and a
    path below [op] with a smaller index stays; a path that [op] ends before
    has its index at depth [op.length - 1] incremented; any other path is
    returned unchanged. *)
Theorem transform_split_node (p op : list Z) (c : Z) (rest : list Z)
    (position : Z) (options : option Affinity) :
  PathTs.transform (ints op) (split_node (ints op) position) options =
    match affinity_of options with
    | forward => Some (ints (adjust (len op - 1) 1 op))
    | backward => Some (ints op)
    | null => None
    end /\
  PathTs.transform (ints (op ++ c :: rest)) (split_node (ints op) position) options =
    (if position <=? c
     then Some (ints (adjust (len op) (- position)
                        (adjust (len op - 1) 1 (op ++ c :: rest))))
     else Some (ints (op ++ c :: rest))) /\
  (EndsBefore op p ->
   PathTs.transform (ints p) (split_node (ints op) position) options =
   Some (ints (adjust (len op - 1) 1 p))) /\
  (~ (exists r, p = op ++ r) -> ~ EndsBefore op p ->
   PathTs.transform (ints p) (split_node (ints op) position) options = Some (ints p)).
Proof.
  split; [apply split_node_self |]. split; [apply split_node_inside |].
  split; [apply split_node_later | apply split_node_unaffected].
Qed.

Lemma transform_split_node_witness :
  PathTs.transform (ints [0; 3]) (split_node (ints [0; 1]) 2) None
    = Some (ints [0; 4]) /\
  PathTs.transform (ints [1; 0]) (split_node (ints [0; 1]) 2) None
    = Some (ints [1; 0]).
Proof.
  split.
  - apply (proj1 (proj2 (proj2
      (transform_split_node [0; 3] [0; 1] 0 [] 2 None)))).
    exists [0], 1, 3, []. split; [| split]; [reflexivity .. | lia].
  - apply (proj2 (proj2 (proj2
      (transform_split_node [1; 0] [0; 1] 0 [] 2 None)))).
    + intros [r H]. discriminate H.
    + intros H%ends_iff. discriminate H.
Defined.

(** ** Operations that undo each other *)








(** ** [move_node] in [path.ts] *)

Lemma adjust_app_l (d k : Z) (p rest : list Z) :
  d < len p -> adjust d k (p ++ rest) = adjust d k p ++ rest.
Proof.
  intros Hd. unfold adjust. destruct (d <? 0) eqn:Hneg; [reflexivity |].
  bool_hyps. apply alter_app_l. unfold len in Hd. lia.
Qed.

(** X18. [Path.transform] through a move_node of the node at [op] to a
    [newPath] that is neither [op] nor below it: a path at or below [op] keeps
    what follows [op] and has [op] replaced by [newPath]; when [op] is an
    earlier sibling of [newPath] or of one of its ancestors, and [newPath] is
    deeper than [op], the index of [newPath] at depth [op.length - 1] is
    decremented, since the removal shifts that sibling. *)
Theorem transform_move_node_inside (op rest newOp : list Z)
    (options : option Affinity) :
  ~ (exists r, newOp = op ++ r) ->
  (EndsBefore op newOp /\ len op < len newOp ->
   PathTs.transform (ints (op ++ rest)) (move_node (ints op) (ints newOp)) options
   = Some (ints (adjust (len op - 1) (-1) newOp ++ rest))) /\
  (~ (EndsBefore op newOp /\ len op < len newOp) ->
   PathTs.transform (ints (op ++ rest)) (move_node (ints op) (ints newOp)) options
   = Some (ints (newOp ++ rest))).
Proof.
  intros Hnoop.
  assert (Hunfold :
    PathTs.transform (ints (op ++ rest)) (move_node (ints op) (ints newOp)) options =
    if opEndsBeforePath (ints newOp) (ints op) && (len (ints op) <? len (ints newOp))
    then Some (js_sub_at (ints (newOp ++ rest)) (len (ints op) - 1) 1)
    else Some (ints (newOp ++ rest))).
  { unfold PathTs.transform, opEndsBeforePath.
    cbn [op_path is_move_node negb orb andb]. cbv zeta.
    destruct (above_tests op rest) as (Hlen & Ha & _ & Hcd).
    rewrite Hlen, Ha, Hcd. cbn [andb negb].
    assert (Hb : (PathTs.commonDepth (ints op) (ints newOp) =? len (ints op)) = false).
    { apply not_true_is_false. rewrite Z.eqb_eq, len_ints.
      intros H%commonDepth_eq_len_l. contradiction. }
    rewrite Hb, (commonDepth_sym (ints newOp) (ints op)).
    assert (Hsplice : splice0 (ints (op ++ rest)) (len (ints op)) (ints newOp)
                      = ints (newOp ++ rest)).
    { unfold splice0. rewrite len_ints. unfold len.
      rewrite Nat2Z.id, ints_drop, drop_app_length. now rewrite ints_app. }
    rewrite Hsplice. reflexivity. }
  rewrite Hunfold. split.
  - intros [Hb Hlen].
    rewrite (proj2 (ends_iff newOp op) Hb), !len_ints.
    apply Z.ltb_lt in Hlen as Hlen'. rewrite Hlen'. cbn [andb].
    pose proof (len_nonneg rest).
    rewrite js_sub_at_adjust by (rewrite len_app; lia).
    now rewrite adjust_app_l by lia.
  - intros Hno. destruct (_ && _) eqn:Hb; [| reflexivity].
    exfalso. apply Hno. bool_hyps. rewrite !len_ints in *.
    split; [now apply ends_iff | assumption].
Qed.

Lemma transform_move_node_inside_witness :
  PathTs.transform (ints [1; 2; 3]) (move_node (ints [1]) (ints [3; 1])) None
    = Some (ints [2; 1; 2; 3]) /\
  PathTs.transform (ints [1; 2; 3]) (move_node (ints [1]) (ints [0; 1])) None
    = Some (ints [0; 1; 2; 3]).
Proof.
  split.
  - apply (proj1 (transform_move_node_inside [1] [2; 3] [3; 1] None
                    ltac:(intros [r H]; discriminate H))).
    split; [| vm_compute; reflexivity].
    exists [], 1, 3, [1]. split; [| split]; [reflexivity .. | lia].
  - apply (proj2 (transform_move_node_inside [1] [2; 3] [0; 1] None
                    ltac:(intros [r H]; discriminate H))).
    intros [H%ends_iff _]. discriminate H.
Defined.

(** A comparison that holds is between two numbers, and an element that is a
    number lies within the array. *)
Lemma js_lt_get (a p : Path) (i j : Z) :
  js_lt (js_get a i) (js_get p j) = true -> 0 <= j < len p.
Proof.
  destruct (js_get a i); try discriminate.
  unfold js_get. destruct (Z.ltb_spec j 0) as [Hneg | Hpos]; [discriminate |].
  intros Hnum. destruct (Z.lt_ge_cases j (len p)) as [Hlt | Hge]; [lia |].
  rewrite nth_overflow in Hnum by (unfold len in Hge; lia). discriminate.
Qed.

(** X19. [Path.transform] through a move_node never destroys a path, and a
    path that is not at or below the moved node keeps its length, whatever the
    arrays hold. *)
Theorem transform_move_node_outside (p op newOp : Path)
    (options : option Affinity) :
  PathTs.transform p (move_node op newOp) options <> None /\
  ((PathTs.commonDepth p op =? len op) = false ->
   forall q, PathTs.transform p (move_node op newOp) options = Some q ->
             length q = length p).
Proof.
  split.
  - unfold PathTs.transform. cbn [op_path is_move_node].
    repeat case_match; discriminate.
  - intros Hout q Htr. unfold PathTs.transform in Htr.
    cbn [op_path is_move_node negb orb] in Htr. cbv zeta in Htr.
    rewrite Hout in Htr.
    pose proof (commonDepth_bounds p op) as (Hc0 & Hcp & Hco).
    pose proof (commonDepth_bounds p newOp) as (Hn0 & Hnp & Hno).
    repeat case_match; simplify_eq; try reflexivity; bool_split;
      repeat match goal with
      | Hlt : js_lt (js_get _ _) (js_get p _) = true |- _ =>
          apply js_lt_get in Hlt
      end;
      length_of_writes; reflexivity.
Qed.

Lemma transform_move_node_outside_witness :
  length [Int 0; Int 4] = length (ints [1; 4]).
Proof.
  apply (proj2 (transform_move_node_outside (ints [1; 4]) (ints [0]) (ints [2])
                  None) eq_refl).
  reflexivity.
Defined.

(** ** Points: order and operations that undo each other *)

(** X20. [Point.compare] changes sign when its arguments are exchanged, so
    [isAfter(a, b)] is [isBefore(b, a)]; a point compares as equal to itself. *)
Theorem point_compare_antisym (a b : Point) :
  Point.compare b a = - Point.compare a b /\
  Point.isAfter a b = Point.isBefore b a /\
  Point.compare a a = 0.
Proof.
  assert (Hanti : Point.compare b a = - Point.compare a b).
  { unfold Point.compare. rewrite (compare_antisym (path a) (path b)).
    destruct (Z.eqb_spec (PathTs.compare (path a) (path b)) 0) as [-> | Hne].
    - cbn [Z.opp Z.eqb].
      destruct (Z.ltb_spec (offset b) (offset a)),
               (Z.ltb_spec (offset a) (offset b)); try reflexivity; lia.
    - destruct (Z.eqb_spec (- PathTs.compare (path a) (path b)) 0); [lia | reflexivity]. }
  split; [exact Hanti |]. split.
  - unfold Point.isAfter, Point.isBefore. rewrite Hanti.
    destruct (Z.eqb_spec (Point.compare a b) 1),
             (Z.eqb_spec (- Point.compare a b) (-1)); try reflexivity; lia.
  - unfold Point.compare.
    assert (Hself : PathTs.compare (path a) (path a) = 0).
    { pose proof (compare_antisym (path a) (path a)). lia. }
    rewrite Hself, Z.ltb_irrefl. reflexivity.
Qed.






(** ** Pending text diffs through operations *)

(** X23. [transformTextDiff] never touches the identifier or the replacement
    text of a diff: whatever the operation and the [Path] implementation, a
    diff that survives keeps both. *)
Theorem transformTextDiff_keeps_id_text {P : PathInterface} (d : TextDiff)
    (op : Operation) (d' : TextDiff) :
  DiffText.transformTextDiff d op = Ok (Some d') ->
  td_id d' = td_id d /\ text (td_diff d') = text (td_diff d).
Proof.
  unfold DiffText.transformTextDiff, DiffText.transformTextDiff_path.
  intros Hd.
  destruct (Path_equals (op_path op) (td_path d)); destruct op;
    cbn [transformsPaths Part000.operationCanTransformPath negb] in Hd;
    repeat case_match; try discriminate;
    try (destruct (Path_next (td_path d)); cbn [rbind] in Hd; try discriminate);
    simplify_eq; cbn [td_id td_diff text]; split; reflexivity.
Qed.

Lemma transformTextDiff_keeps_id_text_witness :
  td_id (mkTextDiff 7 (ints [0; 2]) (mkStringDiff 1 3 (js "ab"))) = 7 /\
  text (td_diff (mkTextDiff 7 (ints [0; 2]) (mkStringDiff 1 3 (js "ab")))) = js "ab".
Proof.
  apply (transformTextDiff_keeps_id_text (P := path_ts)
           (mkTextDiff 7 (ints [0; 1]) (mkStringDiff 4 6 (js "ab")))
           (split_node (ints [0; 1]) 3)).
  reflexivity.
Defined.





(** ** [normalizeStringDiff] finds the minimal diff *)

(** Where the prefix loop stops short of its bound, the two strings differ. *)
Lemma longestCommonPrefixLength_loop_max (str another : jsstring) (length : Z)
    (fuel : nat) (i : Z) :
  i + Z.of_nat fuel = length ->
  let r := DiffText.longestCommonPrefixLength_loop str another length fuel i in
  r < length -> charAt str r <> charAt another r.
Proof.
  revert i. induction fuel as [| fuel IH]; intros i Hfuel; cbn.
  - lia.
  - unfold str_neq. case_bool_decide as Hc; cbn [negb].
    + apply IH. lia.
    + intros _. exact Hc.
Qed.

Lemma longestCommonSuffixLength_loop_max (str another : jsstring) (length : Z)
    (fuel : nat) (i : Z) :
  i + Z.of_nat fuel = length ->
  let r := DiffText.longestCommonSuffixLength_loop str another length fuel i in
  r < length ->
  charAt str (len str - r - 1) <> charAt another (len another - r - 1).
Proof.
  revert i. induction fuel as [| fuel IH]; intros i Hfuel; cbn.
  - lia.
  - unfold str_neq. case_bool_decide as Hc; cbn [negb].
    + apply IH. lia.
    + intros _. exact Hc.
Qed.

(** Two strings that start differently, or one of which is empty, share no
    prefix; likewise at the end. *)
Lemma longestCommonPrefixLength_zero (str another : jsstring) :
  Z.min (len str) (len another) = 0 \/ charAt str 0 <> charAt another 0 ->
  DiffText.longestCommonPrefixLength str another = 0.
Proof.
  unfold DiffText.longestCommonPrefixLength. intros [-> | Hc]; [reflexivity |].
  destruct (Z.to_nat (Z.min (len str) (len another))) as [| fuel] eqn:Hfuel.
  - pose proof (len_nonneg str). pose proof (len_nonneg another). cbn. lia.
  - cbn. unfold str_neq. now rewrite bool_decide_eq_false_2.
Qed.

Lemma longestCommonSuffixLength_zero (str another : jsstring) (max : Z) :
  0 <= max ->
  Z.min (Z.min (len str) (len another)) max = 0 \/
  charAt str (len str - 1) <> charAt another (len another - 1) ->
  DiffText.longestCommonSuffixLength str another max = 0.
Proof.
  unfold DiffText.longestCommonSuffixLength. intros Hmax [-> | Hc]; [reflexivity |].
  destruct (Z.to_nat (Z.min (Z.min (len str) (len another)) max)) as [| fuel] eqn:Hfuel.
  - pose proof (len_nonneg str). pose proof (len_nonneg another). cbn. lia.
  - cbn. unfold str_neq. rewrite !Z.sub_0_r. now rewrite bool_decide_eq_false_2.
Qed.

(** A character of a slice is a character of the string. *)
Lemma charAt_slice (l : jsstring) (P n k : nat) :
  (k < n)%nat -> (P + n <= length l)%nat ->
  charAt (take n (drop P l)) (Z.of_nat k) = charAt l (Z.of_nat (P + k)).
Proof.
  intros Hk Hn.
  rewrite !charAt_inside
    by (unfold len; rewrite ?length_take, ?length_drop; lia).
  rewrite !Nat2Z.id.
  replace n with (k + (n - k))%nat at 1 by lia.
  rewrite <- take_drop_commute, take_take, drop_drop.
  f_equal. lia.
Qed.

(** What [normalizeStringDiff] computes for a diff that fits: it cuts a shared
    prefix of [pl] characters and a shared suffix of [sl] characters off the
    removed span [r] and off the replacement, and neither can be longer. *)
Lemma normalizeStringDiff_parts (t : jsstring) (d : StringDiff) :
  fits t d ->
  let r := take (Z.to_nat (end_ d) - Z.to_nat (start d)) (drop (Z.to_nat (start d)) t) in
  exists pl sl : nat,
    (pl + sl <= length r)%nat /\ (pl + sl <= length (text d))%nat /\
    len r = end_ d - start d /\
    DiffText.normalizeStringDiff t d =
      (let m := {| start := start d + Z.of_nat pl;
                   end_ := end_ d - Z.of_nat sl;
                   text := take (length (text d) - sl - pl) (drop pl (text d)) |} in
       if (start m =? end_ m) && (len (text m) =? 0) then None else Some m) /\
    ((pl < length r)%nat -> (pl < length (text d))%nat ->
     charAt r (Z.of_nat pl) <> charAt (text d) (Z.of_nat pl)) /\
    ((pl + sl < length r)%nat -> (pl + sl < length (text d))%nat ->
     charAt r (Z.of_nat (length r - sl - 1)) <>
     charAt (text d) (Z.of_nat (length (text d) - sl - 1))).
Proof.
  intros (Hs & Hse & He). cbv zeta. unfold DiffText.normalizeStringDiff.
  rewrite (str_slice_nonneg t (start d) (end_ d)) by lia.
  set (r := take (Z.to_nat (end_ d) - Z.to_nat (start d)) (drop (Z.to_nat (start d)) t)).
  assert (Hrlen : len r = end_ d - start d).
  { unfold r, len in *. rewrite length_take, length_drop. lia. }
  pose proof (longestCommonPrefixLength_spec r (text d)) as [Hp _].
  pose proof (longestCommonPrefixLength_loop_max r (text d)
                (Z.min (len r) (len (text d)))
                (Z.to_nat (Z.min (len r) (len (text d)))) 0) as Hpmax.
  fold (DiffText.longestCommonPrefixLength r (text d)) in Hpmax.
  set (prefixLength := DiffText.longestCommonPrefixLength r (text d)) in *.
  set (max := Z.min (len r - prefixLength) (len (text d) - prefixLength)).
  assert (Hmax : 0 <= max) by (unfold max; lia).
  pose proof (longestCommonSuffixLength_spec r (text d) max Hmax) as [Hq _].
  pose proof (longestCommonSuffixLength_loop_max r (text d)
                (Z.min (Z.min (len r) (len (text d))) max)
                (Z.to_nat (Z.min (Z.min (len r) (len (text d))) max)) 0) as Hqmax.
  fold (DiffText.longestCommonSuffixLength r (text d) max) in Hqmax.
  set (suffixLength := DiffText.longestCommonSuffixLength r (text d) max) in *.
  pose proof (len_nonneg (text d)) as Htl. pose proof (len_nonneg r) as Hrl.
  exists (Z.to_nat prefixLength), (Z.to_nat suffixLength).
  unfold len in *. rewrite !Z2Nat.id by lia.
  split; [lia |]. split; [lia |]. split; [exact Hrlen |]. split; [| split].
  - rewrite str_slice_nonneg by lia. cbn [start end_ text].
    replace (Z.to_nat (Z.of_nat (length (text d)) - suffixLength) - Z.to_nat prefixLength)%nat
      with (length (text d) - Z.to_nat suffixLength - Z.to_nat prefixLength)%nat by lia.
    reflexivity.
  - intros H1 H2. apply Hpmax; lia.
  - intros H1 H2.
    replace (Z.of_nat (length r - Z.to_nat suffixLength - 1))
      with (Z.of_nat (length r) - suffixLength - 1) by lia.
    replace (Z.of_nat (length (text d) - Z.to_nat suffixLength - 1))
      with (Z.of_nat (length (text d)) - suffixLength - 1) by lia.
    apply Hqmax; unfold max in *; lia.
Qed.

(** X26. [normalizeStringDiff] only shrinks a diff: the normalized diff still
    fits the text, starts no earlier, ends no later, and the span and the
    replacement text lose the same number of characters. *)
Theorem normalizeStringDiff_shrinks (t : jsstring) (d m : StringDiff) :
  fits t d -> DiffText.normalizeStringDiff t d = Some m ->
  fits t m /\ start d <= start m /\ end_ m <= end_ d /\
  (start m - start d) + (end_ d - end_ m) = len (text d) - len (text m).
Proof.
  intros Hfit Hnorm.
  destruct (normalizeStringDiff_parts t d Hfit)
    as (pl & sl & Hr & Ht & Hrlen & Heq & _).
  destruct Hfit as (Hs & Hse & He).
  rewrite Heq in Hnorm. cbv zeta in Hnorm.
  destruct (_ && _) in Hnorm; [discriminate |]. injection Hnorm as <-.
  cbn [start end_ text]. unfold fits, len in *. cbn [start end_ text].
  rewrite length_take, length_drop. lia.
Qed.

Lemma normalizeStringDiff_shrinks_witness :
  fits (js "hello world") (mkStringDiff 6 11 (js "earth")) /\
  0 <= 6 /\ 11 <= 11 /\ (6 - 0) + (11 - 11) = len (js "hello earth") - len (js "earth").
Proof.
  apply (normalizeStringDiff_shrinks (js "hello world")
           (mkStringDiff 0 11 (js "hello earth")) (mkStringDiff 6 11 (js "earth"))).
  - vm_compute. intuition discriminate.
  - reflexivity.
Defined.

(** X27. [normalizeStringDiff] is idempotent: a normalized diff has no common
    prefix and no common suffix left to strip, so normalizing it again returns
    it as it is. *)
Theorem normalizeStringDiff_idempotent (t : jsstring) (d m : StringDiff) :
  fits t d -> DiffText.normalizeStringDiff t d = Some m ->
  DiffText.normalizeStringDiff t m = Some m.
Proof.
  intros Hfit Hnorm.
  destruct (normalizeStringDiff_parts t d Hfit)
    as (pl & sl & Hr & Ht & Hrlen & Heq & Hpmax & Hsmax).
  destruct Hfit as (Hs & Hse & He).
  rewrite Heq in Hnorm. cbv zeta in Hnorm. cbn [start end_ text] in Hnorm.
  set (r := take (Z.to_nat (end_ d) - Z.to_nat (start d))
              (drop (Z.to_nat (start d)) t)) in *.
  set (mid := take (length (text d) - sl - pl) (drop pl (text d))) in *.
  destruct ((start d + Z.of_nat pl =? end_ d - Z.of_nat sl) && (len mid =? 0))
    eqn:Hnull; [discriminate |].
  injection Hnorm as <-.
  assert (Hrl : length r = (Z.to_nat (end_ d) - Z.to_nat (start d))%nat)
    by (unfold len in Hrlen; lia).
  assert (Hmidlen : length mid = (length (text d) - sl - pl)%nat).
  { unfold mid. rewrite length_take, length_drop. lia. }
  unfold DiffText.normalizeStringDiff. cbn [start end_ text].
  rewrite (str_slice_nonneg t) by lia.
  (* the span that the normalized diff removes *)
  assert (Hspan :
    take (Z.to_nat (end_ d - Z.of_nat sl) - Z.to_nat (start d + Z.of_nat pl))
         (drop (Z.to_nat (start d + Z.of_nat pl)) t)
    = take (length r - sl - pl) (drop pl r)).
  { rewrite Hrl. unfold r.
    replace (take (Z.to_nat (end_ d) - Z.to_nat (start d)) (drop (Z.to_nat (start d)) t))
      with (take (pl + (Z.to_nat (end_ d) - Z.to_nat (start d) - pl))
              (drop (Z.to_nat (start d)) t)) by (f_equal; lia).
    rewrite <- take_drop_commute, take_take, drop_drop.
    f_equal; [lia | f_equal; lia]. }
  rewrite Hspan.
  set (r' := take (length r - sl - pl) (drop pl r)).
  assert (Hr'len : length r' = (length r - sl - pl)%nat).
  { unfold r'. rewrite length_take, length_drop. lia. }
  (* nothing is shared at the front *)
  assert (Hpre : DiffText.longestCommonPrefixLength r' mid = 0).
  { apply longestCommonPrefixLength_zero. unfold len.
    destruct (length r') as [| nr] eqn:Hnr; [left; lia |].
    destruct (length mid) as [| nm] eqn:Hnm; [left; lia |].
    right. unfold r', mid.
    rewrite (charAt_slice r pl _ 0), (charAt_slice (text d) pl _ 0) by lia.
    rewrite Nat.add_0_r. apply Hpmax; lia. }
  rewrite Hpre, !Z.sub_0_r.
  (* nothing is shared at the back *)
  assert (Hsuf : DiffText.longestCommonSuffixLength r' mid
                   (Z.min (len r') (len mid)) = 0).
  { apply longestCommonSuffixLength_zero;
      [pose proof (len_nonneg r'); pose proof (len_nonneg mid); lia |].
    unfold len.
    destruct (length r') as [| nr] eqn:Hnr; [left; lia |].
    destruct (length mid) as [| nm] eqn:Hnm; [left; lia |].
    right.
    replace (Z.of_nat (S nr) - 1) with (Z.of_nat nr) by lia.
    replace (Z.of_nat (S nm) - 1) with (Z.of_nat nm) by lia.
    unfold r', mid.
    rewrite (charAt_slice r pl _ nr), (charAt_slice (text d) pl _ nm) by lia.
    replace (pl + nr)%nat with (length r - sl - 1)%nat by lia.
    replace (pl + nm)%nat with (length (text d) - sl - 1)%nat by lia.
    apply Hsmax; lia. }
  rewrite Hsuf, Z.add_0_r, !Z.sub_0_r.
  rewrite str_slice_0 by apply len_nonneg.
  replace (take (Z.to_nat (len mid)) mid) with mid
    by (unfold len; now rewrite Nat2Z.id, firstn_all).
  now rewrite Hnull.
Qed.

Lemma normalizeStringDiff_idempotent_witness :
  DiffText.normalizeStringDiff (js "hello world") (mkStringDiff 6 11 (js "earth"))
  = Some (mkStringDiff 6 11 (js "earth")).
Proof.
  apply (normalizeStringDiff_idempotent (js "hello world")
           (mkStringDiff 0 11 (js "hello earth"))).
  - vm_compute. intuition discriminate.
  - reflexivity.
Defined.

(** ** [verifyDiffState] after the diff was applied *)

(** X28. A diff that was applied to the text of its leaf verifies: when the
    leaf at the path of the diff is a text node that reads the old text with
    the diff applied, [verifyDiffState] answers [true], without looking at the
    next leaf. *)
Theorem verifyDiffState_after_apply {P : PathInterface} {E : EditorApi}
    (editor : Editor) (textDiff : TextDiff) (node : Node) (t : jsstring) :
  fits t (td_diff textDiff) ->
  Editor_hasPath editor (td_path textDiff) = true ->
  Node_get editor (td_path textDiff) = Ok node ->
  Node_isText node = true ->
  Node_text node = DiffText.applyStringDiff t [td_diff textDiff] ->
  DiffText.verifyDiffState editor textDiff = Ok true.
Proof.
  intros (Hs & Hse & He) Hhas Hget Htext Hread.
  unfold DiffText.verifyDiffState. rewrite Hhas, Hget. cbn [negb rbind].
  rewrite Htext. cbn [negb]. rewrite Hread, applyStringDiff_one by lia.
  set (d := td_diff textDiff) in *.
  assert (Hlen : len (take (Z.to_nat (start d)) t ++ text d ++ drop (Z.to_nat (end_ d)) t)
                 = start d + len (text d) + (len t - end_ d)).
  { unfold len in *. rewrite !length_app, length_take, length_drop. lia. }
  assert (Hbranch :
    negb (start d =? len (take (Z.to_nat (start d)) t ++ text d ++ drop (Z.to_nat (end_ d)) t))
    || (len (text d) =? 0) = true).
  { rewrite Hlen. pose proof (len_nonneg (text d)).
    destruct (Z.eqb_spec (len (text d)) 0) as [| Hne]; [apply orb_true_r |].
    destruct (Z.eqb_spec (start d) (start d + len (text d) + (len t - end_ d)));
      [lia | reflexivity]. }
  rewrite Hbranch. f_equal. apply bool_decide_eq_true.
  pose proof (len_nonneg (text d)).
  rewrite str_slice_nonneg by lia.
  rewrite drop_app_length' by (rewrite length_take; unfold len in *; lia).
  apply take_app_length'. unfold len. lia.
Qed.

Lemma verifyDiffState_after_apply_witness :
  @DiffText.verifyDiffState path_ts one_leaf tt
    {| td_id := 1; td_path := [Int 0]; td_diff := mkStringDiff 1 2 (js "e") |}
  = Ok true.
Proof.
  apply (@verifyDiffState_after_apply path_ts one_leaf tt
           {| td_id := 1; td_path := [Int 0]; td_diff := mkStringDiff 1 2 (js "e") |}
           (js "hello") (js "hallo")).
  - vm_compute. intuition discriminate.
  - reflexivity.
  - reflexivity.
  - reflexivity.
  - reflexivity.
Defined.

(** ** The children arrays of [modify.ts] *)

(** A splice inside the array. *)
Lemma replaceChildren_in_range {T : Type} (c : list T) (i n : Z) (vs : list T) :
  0 <= i <= len c -> 0 <= n <= len c - i ->
  Modify.replaceChildren c i n vs =
    take (Z.to_nat i) c ++ vs ++ drop (Z.to_nat i + Z.to_nat n) c.
Proof.
  intros Hi Hn. unfold Modify.replaceChildren.
  destruct (Z.ltb_spec i 0); [lia |].
  rewrite (Z.min_l i) by lia. rewrite (Z.max_l n 0) by lia.
  rewrite (Z.min_l n) by lia. rewrite Z2Nat.inj_add by lia. reflexivity.
Qed.

(** X29. [removeChildren] undoes [insertChildren]: removing, at the index of
    an insertion inside the array, as many children as were inserted gives the
    array back. *)
Theorem removeChildren_undoes_insertChildren {T : Type} (c vs : list T) (i : Z) :
  0 <= i <= len c ->
  Modify.removeChildren (Modify.insertChildren c i vs) i (len vs) [] = c.
Proof.
  intros Hi. unfold Modify.removeChildren, Modify.insertChildren.
  rewrite (replaceChildren_in_range c i 0 vs) by lia.
  change (Z.to_nat 0) with 0%nat. rewrite Nat.add_0_r.
  assert (Hk : (Z.to_nat i <= length c)%nat) by (unfold len in Hi; lia).
  set (k := Z.to_nat i) in *.
  assert (Hlen : len (take k c ++ vs ++ drop k c) = len c + len vs).
  { unfold len. rewrite !length_app, length_take, length_drop. lia. }
  pose proof (len_nonneg vs).
  rewrite replaceChildren_in_range by lia.
  fold k. unfold len at 1. rewrite Nat2Z.id.
  rewrite take_app_length' by (rewrite length_take; lia).
  rewrite <- drop_drop.
  rewrite drop_app_length' by (rewrite length_take; lia).
  rewrite drop_app_length' by reflexivity.
  cbn [app]. apply take_drop.
Qed.

Lemma removeChildren_undoes_insertChildren_witness :
  Modify.removeChildren (Modify.insertChildren [10; 20; 30] 1 [7; 8]) 1 (len [7; 8]) []
  = [10; 20; 30].
Proof.
  apply (removeChildren_undoes_insertChildren [10; 20; 30] [7; 8] 1).
  vm_compute. intuition discriminate.
Defined.

(** X30. [replaceChild] inside the array is the splice of one child: it gives
    what [replaceChildren] gives when it replaces one child by the new value,
    and the array keeps its length. *)
Theorem replaceChild_is_splice {T : Type} (c : list T) (i : Z) (v : T) :
  0 <= i < len c ->
  Modify.replaceChild c i v = map Some (Modify.replaceChildren c i 1 [v]) /\
  length (Modify.replaceChild c i v) = length c.
Proof.
  intros Hi. unfold Modify.replaceChild.
  destruct (Z.ltb_spec i 0); [lia |].
  assert (Hk : (Z.to_nat i < length c)%nat) by (unfold len in Hi; lia).
  set (k := Z.to_nat i) in *.
  rewrite length_map. destruct (Nat.ltb_spec k (length c)); [| lia].
  split; [| now rewrite length_insert, length_map].
  rewrite replaceChildren_in_range by lia. fold k.
  change (Z.to_nat 1) with 1%nat.
  rewrite !map_app, <- firstn_map, <- skipn_map.
  rewrite insert_take_drop by (rewrite length_map; lia).
  cbn [map app]. now rewrite Nat.add_1_r.
Qed.

Lemma replaceChild_is_splice_witness :
  Modify.replaceChild [10; 20; 30] 1 7
    = map Some (Modify.replaceChildren [10; 20; 30] 1 1 [7]) /\
  length (Modify.replaceChild [10; 20; 30] 1 7) = length [10; 20; 30].
Proof.
  apply (replaceChild_is_splice [10; 20; 30] 1 7).
  vm_compute. intuition discriminate.
Defined.
